(** * A shallow embedding of @bumble/store (build/bundle-esm.js)

    The module keeps one private [state] object, a listener array, a
    readiness flag and a pending setter closure; [setState] batches its
    updates behind a zero-delay timer.

    - Objects that can be observed from outside the module (copies handed
      out, arguments, values stored in the state) live in a heap of
      locations, so that "a copy" and "the same object" are different
      statements.
    - The module-level variables are the fields of [world], together with
      what the host keeps for the page: the heap, the timer queue, the
      promises made by [setState] and a trace of what listeners and
      promise holders get to see.
    - An operation takes the world and returns its result, or the
      exception it throws, with the world after it.
    - Callbacks are pure: a selector or update function is a Rocq function
      of the properties it is given, and an update function may throw
      instead of returning; a listener is an identity whose calls are
      recorded. *)

From stdpp Require Import gmap strings list fin_maps pretty.

Open Scope string_scope.

(** ** JavaScript values *)

Definition loc := positive.

(** Numbers are restricted to integers; function values are not stored in
    the state (callbacks are modelled where they are passed, see
    [selector] and [update]). *)
Inductive value :=
  | VUndefined
  | VNull
  | VBool (b : bool)
  | VNum (n : Z)
  | VStr (s : string)
  | VRef (l : loc).

Global Instance value_eq_dec : EqDecision value.
Proof. solve_decision. Defined.

(** The own enumerable properties of a plain object. *)
Abbreviation props := (gmap string value).

(** Heap objects.  [HObject] and [HArray] are the plain objects and the
    arrays of the store's own window, the ones for which [instanceof
    Object] (and [instanceof Array]) holds there.  The two others fail
    both tests: an object made in another window (a connected page) or
    without a prototype, and an array made in another window. *)
Inductive hobj :=
  | HObject (fields : props)
  | HArray (elems : list value)
  | HForeignObject (fields : props)
  | HForeignArray (elems : list value).

Abbreviation heap := (gmap loc hobj).

(** Thrown exceptions: [new Error(msg)] and the engine's [TypeError]. *)
Inductive exn :=
  | Error (msg : string)
  | TypeError (msg : string).

Inductive result (A : Type) :=
  | Ok (a : A)
  | Throw (e : exn).
Arguments Ok {A} a.
Arguments Throw {A} e.

(** [new] object: the next unused location. *)
Definition alloc (o : hobj) (h : heap) : loc * heap :=
  let l := fresh (dom h) in (l, <[l := o]> h).

(** Keys of an array or string spread: "0", "1", ... *)
Definition indexed (vs : list value) : props :=
  list_to_map (imap (fun i v => (pretty i, v)) vs).

Fixpoint chars (s : string) : list value :=
  match s with
  | EmptyString => []
  | String c r => VStr (String c EmptyString) :: chars r
  end.

(** What [{...v}] and [Object.assign(target, v)] read from [v]. *)
Definition own_props (h : heap) (v : value) : props :=
  match v with
  | VRef l =>
      match h !! l with
      | Some (HObject m) | Some (HForeignObject m) => m
      | Some (HArray vs) | Some (HForeignArray vs) => indexed vs
      | None => ∅
      end
  | VStr s => indexed (chars s)
  | _ => ∅
  end.

(** [{...a, ...b}]: the keys of [b] win. *)
Definition spread2 (a b : props) : props := b ∪ a.

(** ** Context classifier *)

(** What the host exposes: [location], the manifest and the value the
    external [timeout(0)] promise of @bumble/stream fulfils with. *)
Record environment := {
  protocol : string;
  pathname : string;
  (** [chrome.runtime.getManifest().background]: [None] when the manifest
      has no background entry, [Some page] otherwise, where [page] is the
      entry's [page] field ([None] for a scripts-only background). *)
  manifest_background : option (option string);
  timeout_value : value;
}.

Definition isBackgroundPage (e : environment) : result bool :=
  if decide (protocol e = "chrome-extension:") then
    if decide (pathname e = "/_generated_background_page.html") then Ok true
    else
      match manifest_background e with
      | None => Throw (TypeError "Cannot read property 'page' of undefined")
      | Some None => Ok false
      | Some (Some page) => Ok (bool_decide (pathname e = page))
      end
  else Ok false.

Definition isContentScript (e : environment) : bool :=
  negb (bool_decide (protocol e = "chrome-extension:")).

(** ** The state owner: module-level variables and the host's queues *)

(** A function object passed as a listener; [===] on functions is
    identity, which is equality of these identifiers.  What a listener
    does with its argument is outside the module: a call is recorded in
    the [trace]. *)
Definition fnid := nat.

(** The argument [keyOrFn] of [getState].  A function selector receives
    the location of the copy it is handed and the copy's properties. *)
Inductive selector :=
  | SelValue (v : value)
  | SelFn (f : loc -> props -> value).

(** The argument [newStateOrFn] of [setState].  A function update is
    represented by the map from the properties of [prevState] to the own
    properties of the object it returns: [UpdFn] for a callback that
    returns whatever it is given, [UpdThrowing] for one that can throw. *)
Inductive update :=
  | UpdValue (v : value)
  | UpdFn (f : props -> props)
  | UpdThrowing (f : props -> result props).

Inductive outcome :=
  | Pending
  | Fulfilled (v : value)
  | Rejected (e : exn).

(** Timer callbacks queued by [timeout(0)], identified by the promise of
    the [setState] call that queued them.  The host is modelled with one
    queue: timers set with the same delay fire in the order they were set,
    and the promise reactions that hang off a timer run before the next
    timer fires. *)
Inductive task :=
  | TCommit (p : nat)
  | TResolve (p : nat).

(** What an observer of the page sees happen, in order. *)
Inductive event :=
  | EvListener (fn : fnid) (arg : value)
  | EvCommit (committed : props)
  | EvSettle (p : nat) (o : outcome).

(** What [initStore] returns. *)
Inductive handle := store.

Record world := World {
  storeReady : bool;
  state : props;
  listeners : list fnid;
  shouldUpdateState : bool;
  composeNextState : heap -> props -> result props;
  storePromise : bool;
  jsheap : heap;
  timers : list task;
  promises : list outcome;
  trace : list event;
}.

Definition module_init : world :=
  World false ∅ [] true (fun _ s => Ok s) false ∅ [] [] [].

Definition set_storeReady (b : bool) (w : world) : world :=
  World b (state w) (listeners w) (shouldUpdateState w) (composeNextState w)
        (storePromise w) (jsheap w) (timers w) (promises w) (trace w).
Definition set_state (s : props) (w : world) : world :=
  World (storeReady w) s (listeners w) (shouldUpdateState w) (composeNextState w)
        (storePromise w) (jsheap w) (timers w) (promises w) (trace w).
Definition set_listeners (ls : list fnid) (w : world) : world :=
  World (storeReady w) (state w) ls (shouldUpdateState w) (composeNextState w)
        (storePromise w) (jsheap w) (timers w) (promises w) (trace w).
Definition set_shouldUpdateState (b : bool) (w : world) : world :=
  World (storeReady w) (state w) (listeners w) b (composeNextState w)
        (storePromise w) (jsheap w) (timers w) (promises w) (trace w).
Definition set_composeNextState (c : heap -> props -> result props) (w : world)
  : world :=
  World (storeReady w) (state w) (listeners w) (shouldUpdateState w) c
        (storePromise w) (jsheap w) (timers w) (promises w) (trace w).
Definition set_storePromise (b : bool) (w : world) : world :=
  World (storeReady w) (state w) (listeners w) (shouldUpdateState w) (composeNextState w)
        b (jsheap w) (timers w) (promises w) (trace w).
Definition set_jsheap (h : heap) (w : world) : world :=
  World (storeReady w) (state w) (listeners w) (shouldUpdateState w) (composeNextState w)
        (storePromise w) h (timers w) (promises w) (trace w).
Definition set_timers (ts : list task) (w : world) : world :=
  World (storeReady w) (state w) (listeners w) (shouldUpdateState w) (composeNextState w)
        (storePromise w) (jsheap w) ts (promises w) (trace w).
Definition set_promises (ps : list outcome) (w : world) : world :=
  World (storeReady w) (state w) (listeners w) (shouldUpdateState w) (composeNextState w)
        (storePromise w) (jsheap w) (timers w) ps (trace w).
Definition log (ev : event) (w : world) : world :=
  World (storeReady w) (state w) (listeners w) (shouldUpdateState w) (composeNextState w)
        (storePromise w) (jsheap w) (timers w) (promises w) (trace w ++ [ev]).

Definition notConnectedError {A} (name : string) : result A :=
  Throw (Error (name ++
    " is not initialized. Call this function after initStore() has completed.")).

(** [{ ...state }], [[...value]], [{ ...value }]: a new object. *)
Definition new_object (o : hobj) (w : world) : value * world :=
  let '(l, h) := alloc o (jsheap w) in (VRef l, set_jsheap h w).

(** [typeof keyOrFn === 'string' && keyOrFn.length] *)
Definition string_key (keyOrFn : selector) : option string :=
  match keyOrFn with
  | SelValue (VStr (String c k)) => Some (String c k)
  | _ => None
  end.

(** The private [state] object is never handed out (every use is a spread
    of it or an [Object.assign] into it), so the field [state] holds its
    properties; a missing key reads as [undefined].  Properties inherited
    from [Object.prototype] are not modelled.  The two [instanceof] tests
    are those of the store's window: see [hobj]. *)
Definition getState (keyOrFn : selector) (w : world) : result value * world :=
  if negb (storeReady w) then (notConnectedError "store.getState", w)
  else
    match string_key keyOrFn with
    | Some key =>
        let value := default VUndefined (state w !! key) in
        match value with
        | VRef l =>
            match jsheap w !! l with
            | Some (HArray vs) =>
                let '(v, w') := new_object (HArray vs) w in (Ok v, w')
            | Some (HObject m) =>
                let '(v, w') := new_object (HObject m) w in (Ok v, w')
            | Some (HForeignObject _) | Some (HForeignArray _) | None =>
                (Ok value, w)
            end
        | _ => (Ok value, w)
        end
    | None =>
        match keyOrFn with
        | SelFn f =>
            let '(l, h) := alloc (HObject (state w)) (jsheap w) in
            (Ok (f l (state w)), set_jsheap h w)
        | SelValue _ =>
            let '(v, w') := new_object (HObject (state w)) w in (Ok v, w')
        end
    end.

(** The setter step [fn] built by one [setState] call. *)
Definition setter_step (newStateOrFn : update) : heap -> props -> result props :=
  match newStateOrFn with
  | UpdFn f => fun _ prevState => Ok (spread2 prevState (f prevState))
  | UpdThrowing f =>
      fun _ prevState =>
        match f prevState with
        | Ok returned => Ok (spread2 prevState returned)
        | Throw err => Throw err
        end
  | UpdValue v => fun h prevState => Ok (spread2 prevState (own_props h v))
  end.

(** The synchronous part of [setState]: the executor of the returned
    promise.  The promise is the next entry of [promises]. *)
Definition setState (newStateOrFn : update) (w : world) : result nat * world :=
  if negb (storeReady w) then (notConnectedError "store.setState", w)
  else
    let p := length (promises w) in
    let w := set_promises (promises w ++ [Pending]) w in
    let setter := composeNextState w in
    let fn := setter_step newStateOrFn in
    let w :=
      set_composeNextState
        (fun h nextState =>
           match setter h nextState with
           | Ok s => fn h s
           | Throw err => Throw err
           end) w in
    let w :=
      if shouldUpdateState w then
        set_shouldUpdateState false (set_timers (timers w ++ [TCommit p]) w)
      else w in
    (Ok p, set_timers (timers w ++ [TResolve p]) w).

(** [listeners.forEach(fn => fn(getState()))] *)
Fixpoint forEach_listener (ls : list fnid) (w : world) : result value * world :=
  match ls with
  | [] => (Ok VUndefined, w)
  | fn :: rest =>
      match getState (SelValue VUndefined) w with
      | (Ok v, w') => forEach_listener rest (log (EvListener fn v) w')
      | (Throw e, w') => (Throw e, w')
      end
  end.

(** The callback of the first timer of a window.  When an update
    callback throws inside [composeNextState(getState())], the callback is
    left there: nothing is assigned, reset or fired. *)
Definition commit (w : world) : result value * world :=
  match getState (SelValue VUndefined) w with
  | (Throw e, w') => (Throw e, w')
  | (Ok copy, w) =>
      match composeNextState w (jsheap w) (own_props (jsheap w) copy) with
      | Throw err => (Throw err, w)
      | Ok nextState =>
          let w := set_state (nextState ∪ state w) w in
          let w := log (EvCommit (state w)) w in
          let w := set_shouldUpdateState true w in
          let w := set_composeNextState (fun _ s => Ok s) w in
          forEach_listener (listeners w) w
      end
  end.

Definition addListener (listener : fnid) (w : world) : result value * world :=
  if storeReady w then (Ok VUndefined, set_listeners (listeners w ++ [listener]) w)
  else (notConnectedError "store.onStateChange.addListener", w).

Definition removeListener (listener : fnid) (w : world) : result value * world :=
  if storeReady w then
    (Ok VUndefined,
     set_listeners (filter (fun l => l <> listener) (listeners w)) w)
  else (notConnectedError "store.onStateChange.removeListener", w).

(** The body evaluates [listeners.some(...)] and drops the result: there
    is no [return]. *)
Definition hasListener (listener : fnid) (w : world) : result value * world :=
  if storeReady w then
    let _ := existsb (fun l => bool_decide (l = listener)) (listeners w) in
    (Ok VUndefined, w)
  else (notConnectedError "store.onStateChange.hasListener", w).

Definition hasListeners (w : world) : result value * world :=
  (Ok (VBool (negb (Nat.eqb (length (listeners w)) 0))), w).

Definition fireListeners (w : world) : result value * world :=
  forEach_listener (listeners w) w.

Definition initStore (e : environment) (initialState : value) (w : world)
  : result handle * world :=
  if storeReady w then (Throw (Error "Cannot initialize the store twice."), w)
  else
    match isBackgroundPage e with
    | Throw err => (Throw err, w)
    | Ok false =>
        (Throw (Error "Must initialize the store in the background page."), w)
    | Ok true =>
        let w := set_state (own_props (jsheap w) initialState ∪ state w) w in
        let w := set_storePromise true w in
        let w := set_storeReady true w in
        (Ok store, w)
    end.

(** ** The host's event loop *)

(** [resolve(v)] of the promise made in [setState], followed by its
    [.then(getState)] reaction.  Resolving a settled promise does nothing. *)
Definition resolve (p : nat) (v : value) (w : world) : world :=
  match promises w !! p with
  | Some Pending =>
      let '(r, w) := getState (SelValue v) w in
      let o := match r with Ok x => Fulfilled x | Throw e => Rejected e end in
      log (EvSettle p o) (set_promises (<[p := o]> (promises w)) w)
  | _ => w
  end.

(** One timer fires; the promise reactions hanging off it run before the
    next timer does. *)
Definition run_task (e : environment) (t : task) (w : world) : world :=
  match t with
  | TCommit p =>
      match commit w with
      | (Ok v, w') => resolve p v w'
      | (Throw _, w') => w'
      end
  | TResolve p => resolve p (timeout_value e) w
  end.

Fixpoint run_tasks (e : environment) (ts : list task) (w : world) : world :=
  match ts with
  | [] => w
  | t :: rest => run_tasks e rest (run_task e t w)
  end.

(** Timers of equal delay fire in the order they were set. *)
Definition run_timers (e : environment) (w : world) : world :=
  run_tasks e (timers w) (set_timers [] w).

(** A batch of synchronous [setState] calls, collecting the promises. *)
Fixpoint setStates (us : list update) (w : world) : list (result nat) * world :=
  match us with
  | [] => ([], w)
  | u :: rest =>
      let '(r, w') := setState u w in
      let '(rs, w'') := setStates rest w' in
      (r :: rs, w'')
  end.

(** ** Vocabulary of the statements *)

(** [o[k] = v] by a holder of the object at [l]. *)
Definition write_prop (l : loc) (k : string) (v : value) (h : heap) : heap :=
  match h !! l with
  | Some (HObject m) => <[l := HObject (<[k := v]> m)]> h
  | _ => h
  end.

(** The spec's reading of one update: a key-level merge into the state
    before it, a function update seeing that state. *)
Definition apply_update (h : heap) (prev : props) (u : update) : props :=
  match u with
  | UpdValue v => own_props h v ∪ prev
  | UpdFn f => f prev ∪ prev
  | UpdThrowing f =>
      match f prev with Ok returned => returned ∪ prev | Throw _ => prev end
  end.

(** The spec's left-to-right merge of a batch on top of [s]. *)
Definition merge_updates (h : heap) (s : props) (us : list update) : props :=
  foldl (apply_update h) s us.

(** The setter chain of a batch on [s]: each step runs on what the step
    before returned, and a step that throws ends the chain. *)
Fixpoint try_updates (h : heap) (s : props) (us : list update) : result props :=
  match us with
  | [] => Ok s
  | u :: us =>
      match setter_step u h s with
      | Ok s' => try_updates h s' us
      | Throw err => Throw err
      end
  end.

(** An update that is not a callback, or whose callback returns on every
    state. *)
Definition update_returns (u : update) : Prop :=
  match u with
  | UpdThrowing f => ∀ prev, ∃ returned, f prev = Ok returned
  | _ => True
  end.

(** An update that is an object is an object of the heap. *)
Definition update_allocated (h : heap) (u : update) : Prop :=
  match u with
  | UpdValue (VRef l) => is_Some (h !! l)
  | _ => True
  end.

(** No batch is open: the store is initialised, the next [setState] will
    schedule a commit and the pending setter is the identity. *)
Definition window_start (w : world) : Prop :=
  storeReady w = true ∧ shouldUpdateState w = true ∧
  ∀ h s, composeNextState w h s = Ok s.

(** The timers left over from earlier windows only resolve promises that
    exist already. *)
Definition old_timer (w : world) (t : task) : Prop :=
  ∃ q, t = TResolve q ∧ q < length (promises w).

(** The listener an event is a call of, if it is one. *)
Definition listener_of (ev : event) : option fnid :=
  match ev with EvListener fn _ => Some fn | _ => None end.

Definition settles (p : nat) (ev : event) : Prop :=
  ∃ o, ev = EvSettle p o.

(** The spec's names for the three errors of the state owner. *)
Definition NotInitializedError (name : string) : exn :=
  Error (name ++
    " is not initialized. Call this function after initStore() has completed.").
Definition AlreadyInitializedError : exn :=
  Error "Cannot initialize the store twice.".
Definition WrongContextError : exn :=
  Error "Must initialize the store in the background page.".

Definition occurrences (f : fnid) (ls : list fnid) : nat :=
  length (filter (fun l => l = f) ls).

(** Calls on the change-notification interface that edit the registry. *)
Inductive registry_op :=
  | Add (f : fnid)
  | Remove (f : fnid).

Definition run_registry_op (w : world) (op : registry_op) : world :=
  match op with
  | Add f => (addListener f w).2
  | Remove f => (removeListener f w).2
  end.

(** How often [f] is expected in the registry after [op], given that it
    was there [n] times before. *)
Definition count_after (f : fnid) (n : nat) (op : registry_op) : nat :=
  match op with
  | Add g => if decide (g = f) then S n else n
  | Remove g => if decide (g = f) then 0 else n
  end.

Definition background_page : environment :=
  Build_environment "chrome-extension:" "/_generated_background_page.html"
                    None VUndefined.

Definition options_page : environment :=
  Build_environment "chrome-extension:" "/options.html" (Some None) VUndefined.

(** The world after [initStore({})] in the background page. *)
Definition initialised : world :=
  (initStore background_page VUndefined module_init).2.

Definition world_with_empty_key : world :=
  set_state {[ "" := VNum 1 ]} initialised.

(** What a step that only hands out copies and settles promises leaves
    alone: the module variables and the timer queue stay, existing objects
    stay, no promise is created. *)
Record grows (w w' : world) : Prop := Grows {
  g_ready : storeReady w' = storeReady w;
  g_state : state w' = state w;
  g_listeners : listeners w' = listeners w;
  g_should : shouldUpdateState w' = shouldUpdateState w;
  g_compose : composeNextState w' = composeNextState w;
  g_storePromise : storePromise w' = storePromise w;
  g_timers : timers w' = timers w;
  g_heap : jsheap w ⊆ jsheap w';
  g_plen : length (promises w') = length (promises w);
}.

(** [c] is an object made between [w] and [w'] that holds [s]. *)
Definition new_copy (s : props) (w w' : world) (c : loc) : Prop :=
  jsheap w !! c = None ∧ jsheap w' !! c = Some (HObject s).

Definition settle_event (p : nat) (c : loc) : event :=
  EvSettle p (Fulfilled (VRef c)).

Definition listener_event (fn : fnid) (c : loc) : event :=
  EvListener fn (VRef c).

(** A store with some content, for the examples: [initStore] was called
    with [{apples: 2, basket: [1, 2]}] and two listeners were added. *)
Definition fruit_heap : heap :=
  <[1%positive := HObject (<["apples" := VNum 2]> {["basket" := VRef 3%positive]})]>
  (<[2%positive := HObject {["pears" := VNum 1]}]>
  {[3%positive := HArray [VNum 1; VNum 2]]}).

Definition fruit_world : world :=
  (addListener 6
     (addListener 5
        (initStore background_page (VRef 1%positive)
           (set_jsheap fruit_heap module_init)).2).2).2.

(** [s => ({apples: s.apples + 1})] *)
Definition add_apple (s : props) : props :=
  match s !! "apples" with
  | Some (VNum n) => {["apples" := VNum (n + 1)]}
  | _ => ∅
  end.

(** [fruit_world] after [setState({pears: 1})] and the firing of its
    commit timer only: a new window can open while the resolve timer of
    that call is still queued. *)
Definition fruit_world_later : world :=
  let w := (setState (UpdValue (VRef 2%positive)) fruit_world).2 in
  run_task background_page (TCommit 0) (set_timers [TResolve 0] w).

(** What the embedding program can do between two timers: call the
    store, or allocate and write objects of its own. *)
Inductive call :=
  | CallInitStore (initialState : value)
  | CallGetState (keyOrFn : selector)
  | CallSetState (newStateOrFn : update)
  | CallAddListener (f : fnid)
  | CallRemoveListener (f : fnid)
  | CallHasListener (f : fnid)
  | CallHasListeners
  | CallFireListeners
  | CallerHeap (h : heap).

Definition do_call (e : environment) (c : call) (w : world) : world :=
  match c with
  | CallInitStore i => (initStore e i w).2
  | CallGetState sel => (getState sel w).2
  | CallSetState u => (setState u w).2
  | CallAddListener f => (addListener f w).2
  | CallRemoveListener f => (removeListener f w).2
  | CallHasListener f => (hasListener f w).2
  | CallHasListeners => (hasListeners w).2
  | CallFireListeners => (fireListeners w).2
  | CallerHeap h => set_jsheap h w
  end.

(** The worlds a page can be in: the module was loaded, then calls and
    timer firings alternate in any order. *)
Inductive reachable (e : environment) : world → Prop :=
  | reach_load : reachable e module_init
  | reach_call c w : reachable e w → reachable e (do_call e c w)
  | reach_timer t ts w :
      reachable e w → timers w = t :: ts →
      reachable e (run_task e t (set_timers ts w)).

(** Timers that resolve promises numbered below [n]. *)
Definition resolves_below (n : nat) (ts : list task) : Prop :=
  Forall (fun t => ∃ q, t = TResolve q ∧ q < n) ts.

(** Between windows the pending setter is the identity and only resolve
    timers are queued; inside a window one commit timer is, unless the
    commit has fired and an update callback threw in it. *)
Definition window_invariant (w : world) : Prop :=
  if shouldUpdateState w then
    (∀ h s, composeNextState w h s = Ok s) ∧
    resolves_below (length (promises w)) (timers w)
  else
    storeReady w = true ∧
    (resolves_below (length (promises w)) (timers w) ∨
     ∃ ts1 p ts2,
       timers w = (ts1 ++ TCommit p :: ts2)%list ∧
       resolves_below (length (promises w)) ts1 ∧
       resolves_below (length (promises w)) ts2).

(** A call whose update callback, if it passes one, returns. *)
Definition returning_call (c : call) : Prop :=
  match c with CallSetState u => update_returns u | _ => True end.

(** The worlds a page reaches when no update callback throws. *)
Inductive reachable_returning (e : environment) : world → Prop :=
  | returning_load : reachable_returning e module_init
  | returning_call_step c w :
      returning_call c → reachable_returning e w →
      reachable_returning e (do_call e c w)
  | returning_timer t ts w :
      reachable_returning e w → timers w = t :: ts →
      reachable_returning e (run_task e t (set_timers ts w)).

(** A store whose commit was lost: it is initialised, [shouldUpdateState]
    is false and no commit timer is queued. *)
Definition wedged (w : world) : Prop :=
  storeReady w = true ∧ shouldUpdateState w = false ∧
  Forall (fun t => ∃ q, t = TResolve q) (timers w).

(** [s => { throw new Error('no state') }] *)
Definition refuse_update : update :=
  UpdThrowing (fun _ => Throw (Error "no state")).

(** The timers one batch of [n] calls adds, the first promise being [p]:
    the commit if this batch opens the window, then one resolve per call. *)
Definition batch_timers (opens : bool) (p n : nat) : list task :=
  (if opens then match n with O => [] | S _ => [TCommit p] end else []) ++
  (TResolve <$> seq p n).

Ltac unfold_setters :=
  unfold set_storeReady, set_state, set_listeners, set_shouldUpdateState,
    set_composeNextState, set_storePromise, set_jsheap, set_timers,
    set_promises, log in *.

(** One move of the page: a call, or the firing of the first queued
    timer. *)
Inductive step (e : environment) : world → world → Prop :=
  | step_call c w : step e w (do_call e c w)
  | step_timer t ts w :
      timers w = t :: ts → step e w (run_task e t (set_timers ts w)).

(** Any number of moves, from any world. *)
Inductive steps (e : environment) : world → world → Prop :=
  | steps_refl w : steps e w w
  | steps_more w1 w2 w3 : steps e w1 w2 → step e w2 w3 → steps e w1 w3.

(** Every promise that is still pending has its resolve timer among [ts],
    no promise was rejected, and promises exist only in an initialised
    store. *)
Definition settling (ts : list task) (w : world) : Prop :=
  (promises w = [] ∨ storeReady w = true) ∧
  (∀ p, promises w !! p = Some Pending → TResolve p ∈ ts) ∧
  (∀ p err, promises w !! p ≠ Some (Rejected err)).

(** The state a commit event reports, if the event is one. *)
Definition commit_of (ev : event) : option props :=
  match ev with EvCommit s => Some s | _ => None end.

(** The properties an update writes, given the state it is applied to. *)
Definition update_props (h : heap) (prev : props) (u : update) : props :=
  match u with
  | UpdValue v => own_props h v
  | UpdFn f => f prev
  | UpdThrowing f => match f prev with Ok returned => returned | Throw _ => ∅ end
  end.

(** A value that is not an array or an object. *)
Definition scalar (v : value) : Prop :=
  match v with VRef _ => False | _ => True end.

(** A page that is not the background page tried everything. *)
Definition refused_world : world :=
  do_call options_page CallFireListeners
    (do_call options_page (CallAddListener 5)
       (do_call options_page (CallSetState (UpdValue (VRef 2%positive)))
          (do_call options_page (CallInitStore (VRef 1%positive))
             (do_call options_page (CallerHeap fruit_heap) module_init)))).

(** ** Remote connector (store.connect.js) *)

(** The connector's own [notConnectedError]. *)
Definition notConnectedError1 {A} (name : string) : result A :=
  Throw (Error (name ++
    " is not initialized. Call this function inside connectToStore().then()")).

(** What the object [backgroundStore] holds: the members it is created
    with, or the members of the owner's [store] once
    [Object.assign(backgroundStore, store)] has run. *)
Inductive members :=
  | Placeholder
  | Assigned.

(** Calls through [backgroundStore]; after the assignment the members are
    the owner's functions, which work on the owner's module variables. The
    placeholder's [onStateChange] has [addListener] and [removeListener]
    only: calling one of the three others calls [undefined]. *)
Definition backgroundStore_getState (bs : members) (keyOrFn : selector)
    (owner : world) : result value * world :=
  match bs with
  | Placeholder => (notConnectedError1 "backgroundStore.getState", owner)
  | Assigned => getState keyOrFn owner
  end.

Definition backgroundStore_setState (bs : members) (newStateOrFn : update)
    (owner : world) : result nat * world :=
  match bs with
  | Placeholder => (notConnectedError1 "backgroundStore.setState", owner)
  | Assigned => setState newStateOrFn owner
  end.

Definition backgroundStore_addListener (bs : members) (listener : fnid)
    (owner : world) : result value * world :=
  match bs with
  | Placeholder =>
      (notConnectedError1 "backgroundStore.onStateChange.addListener", owner)
  | Assigned => addListener listener owner
  end.

Definition backgroundStore_removeListener (bs : members) (listener : fnid)
    (owner : world) : result value * world :=
  match bs with
  | Placeholder =>
      (notConnectedError1 "backgroundStore.onStateChange.removeListener", owner)
  | Assigned => removeListener listener owner
  end.

Definition backgroundStore_hasListener (bs : members) (listener : fnid)
    (owner : world) : result value * world :=
  match bs with
  | Placeholder =>
      (Throw (TypeError
         "backgroundStore.onStateChange.hasListener is not a function"), owner)
  | Assigned => hasListener listener owner
  end.

Definition backgroundStore_hasListeners (bs : members) (owner : world)
  : result value * world :=
  match bs with
  | Placeholder =>
      (Throw (TypeError
         "backgroundStore.onStateChange.hasListeners is not a function"), owner)
  | Assigned => hasListeners owner
  end.

Definition backgroundStore_fireListeners (bs : members) (owner : world)
  : result value * world :=
  match bs with
  | Placeholder =>
      (Throw (TypeError
         "backgroundStore.onStateChange.fireListeners is not a function"), owner)
  | Assigned => fireListeners owner
  end.

(** What [chrome.runtime.getBackgroundPage(callback)] does: it throws, or
    calls back with [chrome.runtime.lastError] set, or calls back with the
    background page's window, which has a [bumbleStore] when that page
    loaded this module. *)
Inductive bridge :=
  | BridgeThrows (err : exn)
  | BridgeLastError (message : string)
  | BridgeWindow (has_bumbleStore : bool).

(** A rejection reason: [reject(lastError.message)] passes a string,
    [reject(error)] the thrown error. *)
Inductive reason :=
  | ReasonMessage (message : string)
  | ReasonError (err : exn).

Inductive promise_state (A : Type) :=
  | StillPending
  | FulfilledWith (a : A)
  | RejectedWith (r : reason).
Arguments StillPending {A}.
Arguments FulfilledWith {A} a.
Arguments RejectedWith {A} r.

(** How the promise of [getBackgroundPage] settles: rejected with a
    reason, or fulfilled with the window ([true] for a window with a
    [bumbleStore]). *)
Definition getBackgroundPage (b : bridge) : reason + bool :=
  match b with
  | BridgeThrows err => inl (ReasonError err)
  | BridgeLastError message => inl (ReasonMessage message)
  | BridgeWindow w => inr w
  end.

(** The promise chain [connectToStore] returns, by what it waits for. *)
Inductive connection :=
  | ConnRejected (r : reason)
  | ConnAwaitsOwner
  | ConnNoStore.

(** [None] is the [undefined] returned in the two contexts that do not
    connect. *)
Definition connectToStore (e : environment) (b : bridge)
  : result (option connection) :=
  match isBackgroundPage e with
  | Throw err => Throw err
  | Ok true => Ok None
  | Ok false =>
      if isContentScript e then Ok None
      else
        Ok (Some (match getBackgroundPage b with
                  | inl r => ConnRejected r
                  | inr true => ConnAwaitsOwner
                  | inr false => ConnNoStore
                  end))
  end.

(** The state of the returned promise and of [backgroundStore] once the
    reactions that can run have run, the owner being in world [owner]:
    the chain adopts the owner's [storePromise], then assigns. *)
Definition connection_state (c : connection) (owner : world) (bs : members)
  : promise_state (option handle) * members :=
  match c with
  | ConnRejected r => (RejectedWith r, bs)
  | ConnNoStore => (FulfilledWith None, bs)
  | ConnAwaitsOwner =>
      if storePromise owner then (FulfilledWith (Some store), Assigned)
      else (StillPending, bs)
  end.

(** [instanceof Object] holds of the object in the store's window. *)
Definition own_window (o : hobj) : Prop :=
  match o with
  | HObject _ | HArray _ => True
  | HForeignObject _ | HForeignArray _ => False
  end.

(** A connected page called [setState({list: [1, 2]})]: the argument and
    the array in it are objects of that page's window. *)
Definition visitor_heap : heap :=
  <[4%positive := HForeignArray [VNum 1; VNum 2]]>
  {[5%positive := HForeignObject {["list" := VRef 4%positive]}]}.

Definition visited_world : world :=
  run_timers background_page
    (setState (UpdValue (VRef 5%positive))
       (set_jsheap visitor_heap initialised)).2.

(** ** Allocation *)

Lemma alloc_fresh (o : hobj) (h : heap) : h !! (alloc o h).1 = None.
Proof. apply not_elem_of_dom, is_fresh. Qed.

Lemma alloc_lookup (o : hobj) (h : heap) : (alloc o h).2 !! (alloc o h).1 = Some o.
Proof. apply lookup_insert_eq. Qed.

Lemma alloc_extends (o : hobj) (h : heap) : h ⊆ (alloc o h).2.
Proof. apply insert_subseteq, (alloc_fresh o). Qed.

Lemma alloc_keeps (o : hobj) (h : heap) (l : loc) (x : hobj) :
  h !! l = Some x → (alloc o h).2 !! l = Some x.
Proof. intros Hl. eapply lookup_weaken; [exact Hl | apply alloc_extends]. Qed.

Lemma own_props_extends (h h' : heap) (v : value) :
  h ⊆ h' → (∀ l, v = VRef l → is_Some (h !! l)) → own_props h' v = own_props h v.
Proof.
  intros Hsub Hv. destruct v as [| | | | |l]; try reflexivity.
  destruct (Hv l eq_refl) as [o Ho]. simpl.
  by rewrite Ho, (lookup_weaken _ _ _ _ Ho Hsub).
Qed.

(** ** Context classifier *)

(** C9. The two context predicates are never both true, and they are not
    complements: under the privileged scheme, a path that is neither the
    generated background page nor the page the manifest declares makes
    both false, and such an environment exists. *)
Theorem context_predicates_not_complements :
  (∀ e, ¬ (isBackgroundPage e = Ok true ∧ isContentScript e = true)) ∧
  (∀ e page,
     protocol e = "chrome-extension:" →
     pathname e ≠ "/_generated_background_page.html" →
     manifest_background e = Some page → page ≠ Some (pathname e) →
     isBackgroundPage e = Ok false ∧ isContentScript e = false) ∧
  (isBackgroundPage options_page = Ok false ∧
   isContentScript options_page = false).
Proof.
  split; [|split].
  - intros e [Hbg Hcs]. unfold isBackgroundPage, isContentScript in *.
    destruct (decide (protocol e = "chrome-extension:")) as [Hp|Hp].
    + rewrite bool_decide_eq_true_2 in Hcs by exact Hp. discriminate.
    + discriminate.
  - intros e page Hp Hpath Hm Hpage. unfold isBackgroundPage, isContentScript.
    rewrite Hm. rewrite !decide_True by exact Hp.
    rewrite decide_False by exact Hpath.
    rewrite bool_decide_eq_true_2 by exact Hp. split; [|reflexivity].
    destruct page as [pg|]; [|reflexivity].
    rewrite bool_decide_eq_false_2; [reflexivity|]. congruence.
  - split; reflexivity.
Qed.

(** ** getState *)

Lemma getState_whole (v : value) (w : world) :
  storeReady w = true → string_key (SelValue v) = None →
  getState (SelValue v) w =
    (Ok (VRef (alloc (HObject (state w)) (jsheap w)).1),
     set_jsheap (alloc (HObject (state w)) (jsheap w)).2 w).
Proof. intros Hr Hk. unfold getState. by rewrite Hr, Hk. Qed.

Lemma getState_frame (keyOrFn : selector) (w : world) :
  (getState keyOrFn w).2 = set_jsheap (jsheap (getState keyOrFn w).2) w ∧
  jsheap w ⊆ jsheap (getState keyOrFn w).2.
Proof.
  assert (Hsame : w = set_jsheap (jsheap w) w) by (by destruct w).
  unfold getState. destruct (storeReady w); simpl; [|by split].
  destruct (string_key keyOrFn) as [key|].
  - destruct (default VUndefined (state w !! key)) as [| | | | |l];
      try by split.
    destruct (jsheap w !! l) as [[m|vs|m|vs]|]; simpl;
      (split; [done | try done; apply alloc_extends]).
  - destruct keyOrFn as [v|f]; simpl; (split; [done | apply alloc_extends]).
Qed.

Lemma getState_ready_ok (v : value) (w : world) :
  storeReady w = true → ∃ x, (getState (SelValue v) w).1 = Ok x.
Proof.
  intros Hr. unfold getState, new_object. rewrite Hr. cbn [negb].
  destruct (string_key (SelValue v)) as [key|]; [|by eexists].
  destruct (default VUndefined (state w !! key)) as [| | | | |l];
    try by eexists.
  destruct (jsheap w !! l) as [[m|vs|m|vs]|]; by eexists.
Qed.

Lemma getState_twice (w : world) :
  storeReady w = true →
  ∃ l1 l2 w1 w2,
    getState (SelValue VUndefined) w = (Ok (VRef l1), w1) ∧
    getState (SelValue VUndefined) w1 = (Ok (VRef l2), w2) ∧
    l1 ≠ l2 ∧ jsheap w !! l1 = None ∧ jsheap w1 !! l2 = None ∧
    jsheap w2 !! l1 = Some (HObject (state w)) ∧
    jsheap w2 !! l2 = Some (HObject (state w)) ∧
    state w2 = state w.
Proof.
  intros Hr.
  set (w1 := set_jsheap (alloc (HObject (state w)) (jsheap w)).2 w).
  assert (Hr1 : storeReady w1 = true) by exact Hr.
  exists (alloc (HObject (state w)) (jsheap w)).1,
         (alloc (HObject (state w1)) (jsheap w1)).1, w1,
         (set_jsheap (alloc (HObject (state w1)) (jsheap w1)).2 w1).
  pose proof (alloc_fresh (HObject (state w1)) (jsheap w1)) as Hf2.
  pose proof (alloc_lookup (HObject (state w)) (jsheap w)) as Hl1.
  split; [by apply getState_whole|]. split; [by apply getState_whole|].
  split; [|split; [apply alloc_fresh|split; [exact Hf2|split; [|split]]]].
  - intros Heq. rewrite <- Heq in Hf2.
    change (jsheap w1) with (alloc (HObject (state w)) (jsheap w)).2 in Hf2.
    rewrite Hl1 in Hf2. discriminate.
  - apply alloc_keeps. exact Hl1.
  - apply alloc_lookup.
  - reflexivity.
Qed.

(** C10. After initialisation the empty string is not used as a key:
    [getState('')] does what [getState()] does and returns a new object
    holding the properties of the whole state. *)
Theorem getState_empty_string_is_whole_state (w : world) :
  storeReady w = true →
  getState (SelValue (VStr "")) w = getState (SelValue VUndefined) w ∧
  ∃ l, jsheap w !! l = None ∧
       getState (SelValue (VStr "")) w =
         (Ok (VRef l), set_jsheap (<[l := HObject (state w)]> (jsheap w)) w).
Proof.
  intros Hr. split.
  - rewrite !getState_whole; done.
  - exists (alloc (HObject (state w)) (jsheap w)).1. split.
    + apply alloc_fresh.
    + by rewrite getState_whole.
Qed.

Lemma getState_empty_string_witness :
  storeReady world_with_empty_key = true ∧
  state world_with_empty_key !! "" = Some (VNum 1) ∧
  getState (SelValue (VStr "")) world_with_empty_key =
    getState (SelValue VUndefined) world_with_empty_key.
Proof.
  split; [reflexivity|]. split; [reflexivity|].
  apply (getState_empty_string_is_whole_state world_with_empty_key).
  reflexivity.
Defined.

(** What [getState] does get right: it leaves the stored state and every
    existing object as they were; two calls without a selector return two
    different new objects, each holding the properties of the state, and a
    write to one is not seen in the other; a non-empty string selector
    returns a new array or object with the same first-level content when
    the value is an array or object of the store's window, and the value
    itself when it is a scalar. *)
Lemma getState_returns_shallow_copies (w : world) :
  storeReady w = true →
  (∀ keyOrFn,
     state (getState keyOrFn w).2 = state w ∧
     listeners (getState keyOrFn w).2 = listeners w ∧
     jsheap w ⊆ jsheap (getState keyOrFn w).2) ∧
  (∃ l1 l2 w1 w2,
     getState (SelValue VUndefined) w = (Ok (VRef l1), w1) ∧
     getState (SelValue VUndefined) w1 = (Ok (VRef l2), w2) ∧
     l1 ≠ l2 ∧ jsheap w !! l1 = None ∧ jsheap w1 !! l2 = None ∧
     jsheap w2 !! l1 = Some (HObject (state w)) ∧
     jsheap w2 !! l2 = Some (HObject (state w)) ∧
     state w2 = state w ∧
     ∀ k v, write_prop l1 k v (jsheap w2) !! l2 = Some (HObject (state w))) ∧
  (∀ key l o,
     key ≠ "" → state w !! key = Some (VRef l) → jsheap w !! l = Some o →
     own_window o →
     ∃ l', getState (SelValue (VStr key)) w =
             (Ok (VRef l'), set_jsheap (<[l' := o]> (jsheap w)) w) ∧
           l' ≠ l ∧ jsheap w !! l' = None) ∧
  (∀ key v,
     key ≠ "" → state w !! key = Some v → (∀ l, v ≠ VRef l) →
     getState (SelValue (VStr key)) w = (Ok v, w)).
Proof.
  intros Hr. split; [|split; [|split]].
  - intros keyOrFn. destruct (getState_frame keyOrFn w) as [Hsame Hsub].
    split; [|split]; [by rewrite Hsame..|exact Hsub].
  - destruct (getState_twice w Hr)
      as (l1 & l2 & w1 & w2 & H1 & H2 & Hne & Hf1 & Hf2 & Hc1 & Hc2 & Hs).
    exists l1, l2, w1, w2. repeat (split; [assumption|]).
    intros k v. unfold write_prop. rewrite Hc1.
    by rewrite lookup_insert_ne.
  - intros key l o Hkey Hs Hl Hown.
    exists (alloc o (jsheap w)).1.
    pose proof (alloc_fresh o (jsheap w)) as Hfresh.
    split; [|split; [|exact Hfresh]].
    + destruct key as [|c k]; [done|].
      unfold getState, new_object. rewrite Hr. cbn [negb string_key].
      rewrite Hs. cbn [from_option id]. rewrite Hl.
      destruct o; try reflexivity; by destruct Hown.
    + intros Heq. rewrite Heq, Hl in Hfresh. discriminate.
  - intros key v Hkey Hs Hv. destruct key as [|c k]; [done|].
    unfold getState. rewrite Hr. cbn [negb string_key]. rewrite Hs.
    cbn [from_option id]. destruct v; try reflexivity. by destruct (Hv l).
Qed.

(** C8. The code against the claim: the copy of a stored array or object
    hangs on [instanceof Array] and [instanceof Object] in the store's
    window; a stored array or object that fails both (it was made by a
    connected page, or has no prototype) reaches the branch commented
    "Primitive value, no need to copy" and is returned itself, so the
    caller holds the very object the state refers to. Objects of the
    store's window are copied as claimed. *)
Theorem getState_returns_foreign_objects_uncopied :
  (∀ w key l o,
     storeReady w = true → key ≠ "" → state w !! key = Some (VRef l) →
     jsheap w !! l = Some o → ¬ own_window o →
     getState (SelValue (VStr key)) w = (Ok (VRef l), w)) ∧
  (state visited_world !! "list" = Some (VRef 4%positive) ∧
   jsheap visited_world !! 4%positive = Some (HForeignArray [VNum 1; VNum 2]) ∧
   getState (SelValue (VStr "list")) visited_world
     = (Ok (VRef 4%positive), visited_world)) ∧
  (∀ w key l o,
     storeReady w = true → key ≠ "" → state w !! key = Some (VRef l) →
     jsheap w !! l = Some o → own_window o →
     ∃ l', getState (SelValue (VStr key)) w =
             (Ok (VRef l'), set_jsheap (<[l' := o]> (jsheap w)) w) ∧
           l' ≠ l ∧ jsheap w !! l' = None).
Proof.
  split; [|split].
  - intros w key l o Hr Hkey Hs Hl Hown. destruct key as [|c k]; [done|].
    unfold getState. rewrite Hr. cbn [negb string_key]. rewrite Hs.
    cbn [from_option id]. rewrite Hl.
    destruct o as [m|vs|m|vs]; try reflexivity; by destruct Hown.
  - repeat split; vm_compute; reflexivity.
  - intros w key l o Hr Hkey Hs Hl Hown.
    destruct (getState_returns_shallow_copies w Hr) as (_ & _ & Hcopy & _).
    by apply (Hcopy key l o).
Qed.

(** ** The listener registry *)

Lemma occurrences_app (f : fnid) (xs ys : list fnid) :
  occurrences f (xs ++ ys) = occurrences f xs + occurrences f ys.
Proof. unfold occurrences. by rewrite filter_app, length_app. Qed.

Lemma occurrences_removed (f : fnid) (ls : list fnid) :
  occurrences f (filter (fun l => l <> f) ls) = 0.
Proof.
  unfold occurrences. induction ls as [|x ls IH]; [reflexivity|].
  rewrite filter_cons. case_decide as Hx; [|exact IH].
  rewrite filter_cons. case_decide; [contradiction|exact IH].
Qed.

Lemma occurrences_kept (f g : fnid) (ls : list fnid) :
  g <> f → occurrences g (filter (fun l => l <> f) ls) = occurrences g ls.
Proof.
  intros Hne. unfold occurrences. induction ls as [|x ls IH]; [reflexivity|].
  rewrite (filter_cons (fun l => l <> f)). case_decide as Hx.
  - rewrite !(filter_cons (fun l => l = g)). case_decide; simpl; by rewrite IH.
  - rewrite (filter_cons (fun l => l = g)).
    case_decide as Hg; [|exact IH]. destruct Hx. congruence.
Qed.

Lemma run_registry_op_ready (w : world) (op : registry_op) :
  storeReady w = true → storeReady (run_registry_op w op) = true.
Proof.
  intros Hr. destruct op as [f|f]; unfold run_registry_op, addListener,
    removeListener; by rewrite Hr.
Qed.

Lemma run_registry_op_count (f : fnid) (w : world) (op : registry_op) :
  storeReady w = true →
  occurrences f (listeners (run_registry_op w op)) =
    count_after f (occurrences f (listeners w)) op.
Proof.
  intros Hr. destruct op as [g|g]; unfold run_registry_op, addListener,
    removeListener, count_after; rewrite Hr; cbn [snd listeners set_listeners].
  - rewrite occurrences_app. unfold occurrences at 2.
    rewrite filter_cons, filter_nil. case_decide; simpl; lia.
  - case_decide as Hg.
    + subst g. apply occurrences_removed.
    + apply occurrences_kept. congruence.
Qed.

(** C4, as the code has it. The registry is an ordered sequence that can
    hold a listener several times: [addListener(f)] appends [f] whether or
    not it is there, and [removeListener(f)] drops every occurrence of
    [f]. After any sequence of the two operations on an initialised store,
    [f] occurs once per [addListener(f)] made since the last
    [removeListener(f)]. *)
Theorem registry_counts_additions (f : fnid) (ops : list registry_op) (w : world) :
  storeReady w = true →
  occurrences f (listeners (foldl run_registry_op w ops)) =
    foldl (count_after f) (occurrences f (listeners w)) ops ∧
  listeners (addListener f w).2 = (listeners w ++ [f])%list ∧
  listeners (removeListener f w).2 = filter (fun l => l <> f) (listeners w).
Proof.
  intros Hr. split.
  - revert w Hr. induction ops as [|op ops IH]; intros w Hr; [reflexivity|].
    cbn [foldl]. rewrite IH by (by apply run_registry_op_ready).
    by rewrite run_registry_op_count.
  - unfold addListener, removeListener. by rewrite Hr.
Qed.

Lemma registry_counts_additions_witness :
  occurrences 0 (listeners (foldl run_registry_op initialised
                              [Add 0; Remove 0; Add 0; Add 1; Add 0])) = 2.
Proof.
  pose proof (registry_counts_additions 0
                [Add 0; Remove 0; Add 0; Add 1; Add 0] initialised eq_refl)
    as [H _].
  exact H.
Defined.

(** C4, as the spec has it, fails: adding the same listener twice leaves
    it in the registry twice. *)
Lemma addListener_twice_keeps_both :
  listeners (addListener 0 (addListener 0 initialised).2).2 = [0; 0] ∧
  ¬ NoDup (listeners (addListener 0 (addListener 0 initialised).2).2).
Proof.
  split; [reflexivity|].
  intros Hnd. apply NoDup_cons in Hnd as [Hin _]. apply Hin. by left.
Qed.

(** C5: the code against the claim. [hasListener] evaluates the membership
    test and returns nothing, so its result is [undefined] whether or not
    the listener is registered; [hasListeners] does answer whether the
    registry is non-empty. *)
Theorem hasListener_returns_undefined :
  (∀ f w, storeReady w = true → hasListener f w = (Ok VUndefined, w)) ∧
  (∀ w, hasListeners w = (Ok (VBool (bool_decide (listeners w ≠ []))), w)) ∧
  listeners (addListener 0 initialised).2 = [0] ∧
  (hasListener 0 (addListener 0 initialised).2).1 = Ok VUndefined ∧
  (hasListeners (addListener 0 initialised).2).1 = Ok (VBool true).
Proof.
  split; [|split; [|by repeat split]].
  - intros f w Hr. unfold hasListener. by rewrite Hr.
  - intros w. unfold hasListeners. by destruct (listeners w).
Qed.

(** ** initStore *)

Lemma initStore_ok_ready (e : environment) (i : value) (w w1 : world) :
  initStore e i w = (Ok store, w1) →
  storeReady w = false ∧ isBackgroundPage e = Ok true ∧
  w1 = set_storeReady true (set_storePromise true
         (set_state (own_props (jsheap w) i ∪ state w) w)).
Proof.
  unfold initStore. destruct (storeReady w); [discriminate|].
  destruct (isBackgroundPage e) as [[|]|]; try discriminate.
  intros [= <-]. by repeat split.
Qed.

(** C6. A second [initStore] throws the already-initialised error and
    leaves the whole world (state, registry, readiness flag and the rest)
    as it was; so does [initStore] outside the background page, with the
    wrong-context error. *)
Theorem initStore_fails_without_effect
    (e1 e2 : environment) (i1 i2 : value) (w w1 : world) :
  initStore e1 i1 w = (Ok store, w1) →
  initStore e2 i2 w1 = (Throw AlreadyInitializedError, w1) ∧
  (∀ e i w0, storeReady w0 = false → isBackgroundPage e = Ok false →
     initStore e i w0 = (Throw WrongContextError, w0)).
Proof.
  intros Hinit. split.
  - apply initStore_ok_ready in Hinit as (_ & _ & ->).
    reflexivity.
  - intros e i w0 Hr Hbg. unfold initStore. by rewrite Hr, Hbg.
Qed.

Lemma initStore_fails_without_effect_witness :
  initStore options_page (VNum 1) initialised =
    (Throw AlreadyInitializedError, initialised) ∧
  initStore options_page VUndefined module_init =
    (Throw WrongContextError, module_init).
Proof.
  destruct (initStore_fails_without_effect background_page options_page
              VUndefined (VNum 1) module_init initialised eq_refl)
    as [H1 H2].
  split; [exact H1|]. apply H2; reflexivity.
Defined.

(** ** Steps that only allocate *)

Lemma grows_refl (w : world) : grows w w.
Proof. by constructor. Qed.

Lemma grows_trans (w1 w2 w3 : world) : grows w1 w2 → grows w2 w3 → grows w1 w3.
Proof.
  intros [] []. constructor; try congruence.
  by etrans.
Qed.

Lemma grows_log (ev : event) (w : world) : grows w (log ev w).
Proof. by constructor. Qed.

Lemma grows_set_promises (ps : list outcome) (w : world) :
  length ps = length (promises w) → grows w (set_promises ps w).
Proof. by constructor. Qed.

Lemma getState_grows (keyOrFn : selector) (w : world) :
  grows w (getState keyOrFn w).2.
Proof.
  destruct (getState_frame keyOrFn w) as [Hsame Hsub].
  rewrite Hsame. by constructor.
Qed.

Lemma new_copy_weaken (s : props) (w0 w w' w'' : world) (c : loc) :
  jsheap w0 ⊆ jsheap w → jsheap w' ⊆ jsheap w'' →
  new_copy s w w' c → new_copy s w0 w'' c.
Proof.
  intros H0 H1 [Hnone Hsome]. split.
  - destruct (jsheap w0 !! c) as [o|] eqn:Hc; [|reflexivity].
    by rewrite (lookup_weaken _ _ _ _ Hc H0) in Hnone.
  - by eapply lookup_weaken.
Qed.

(** [getState()] on an initialised store, with everything it changes. *)
Lemma getState_whole_copy (v : value) (w : world) :
  storeReady w = true → string_key (SelValue v) = None →
  ∃ c, getState (SelValue v) w =
         (Ok (VRef c), set_jsheap (<[c := HObject (state w)]> (jsheap w)) w) ∧
       jsheap w !! c = None.
Proof.
  intros Hr Hk. exists (alloc (HObject (state w)) (jsheap w)).1.
  split; [by rewrite getState_whole|apply alloc_fresh].
Qed.

(** ** resolve *)

Lemma resolve_settled (p : nat) (v : value) (w : world) :
  promises w !! p ≠ Some Pending → resolve p v w = w.
Proof.
  intros Hp. unfold resolve. destruct (promises w !! p) as [[| |]|]; done.
Qed.

Lemma resolve_pending (p : nat) (v : value) (w : world) :
  storeReady w = true → string_key (SelValue v) = None →
  promises w !! p = Some Pending →
  ∃ c, new_copy (state w) w (resolve p v w) c ∧
       grows w (resolve p v w) ∧
       trace (resolve p v w) = (trace w ++ [settle_event p c])%list ∧
       promises (resolve p v w) = <[p := Fulfilled (VRef c)]> (promises w).
Proof.
  intros Hr Hk Hp. destruct (getState_whole_copy v w Hr Hk) as (c & Hg & Hc).
  exists c. unfold resolve. rewrite Hp, Hg. cbn.
  split; [|split; [|done]].
  - split; [exact Hc|]. apply lookup_insert_eq.
  - constructor; try done; cbn.
    + by apply insert_subseteq.
    + by rewrite length_insert.
Qed.

Lemma resolve_grows (p : nat) (v : value) (w : world) : grows w (resolve p v w).
Proof.
  unfold resolve. destruct (promises w !! p) as [[| |]|]; try apply grows_refl.
  pose proof (getState_grows (SelValue v) w) as Hg.
  destruct (getState (SelValue v) w) as [r w']. cbn in Hg.
  eapply grows_trans; [exact Hg|].
  eapply grows_trans; [|apply grows_log].
  apply grows_set_promises. by rewrite length_insert.
Qed.

Lemma resolve_other (p q : nat) (v : value) (w : world) :
  q ≠ p → promises (resolve p v w) !! q = promises w !! q.
Proof.
  intros Hne. unfold resolve. destruct (promises w !! p) as [[| |]|]; try done.
  pose proof (getState_frame (SelValue v) w) as [Hsame _].
  destruct (getState (SelValue v) w) as [r w']. cbn in *.
  rewrite list_lookup_insert_ne by done. by rewrite Hsame.
Qed.

Lemma resolve_trace (p : nat) (v : value) (w : world) :
  ∃ evs, trace (resolve p v w) = (trace w ++ evs)%list ∧
         Forall (fun ev => ∃ o, ev = EvSettle p o) evs.
Proof.
  unfold resolve. destruct (promises w !! p) as [[| |]|];
    try (exists []; split; [by rewrite app_nil_r|constructor]).
  pose proof (getState_frame (SelValue v) w) as [Hsame _].
  destruct (getState (SelValue v) w) as [r w']. cbn in *.
  eexists [_]. rewrite Hsame. cbn. split; [reflexivity|].
  constructor; [by eexists|constructor].
Qed.

(** ** Firing the listeners *)

Lemma forEach_listener_ready (ls : list fnid) (w : world) :
  storeReady w = true →
  ∃ cs w',
    forEach_listener ls w = (Ok VUndefined, w') ∧
    length cs = length ls ∧ NoDup cs ∧
    Forall (new_copy (state w) w w') cs ∧
    trace w' = (trace w ++ zip_with listener_event ls cs)%list ∧
    promises w' = promises w ∧
    grows w w'.
Proof.
  revert w. induction ls as [|fn ls IH]; intros w Hr.
  - exists [], w. cbn. rewrite app_nil_r.
    repeat split; try constructor; done.
  - destruct (getState_whole_copy VUndefined w Hr eq_refl) as (c & Hg & Hc).
    set (w1 := log (EvListener fn (VRef c))
                 (set_jsheap (<[c := HObject (state w)]> (jsheap w)) w)).
    destruct (IH w1 Hr) as (cs & w' & Hrun & Hlen & Hnd & Hcs & Htr & Hps & Hgr).
    assert (Hsub : jsheap w ⊆ jsheap w1) by (by apply insert_subseteq).
    assert (Hc1 : jsheap w1 !! c = Some (HObject (state w)))
      by apply lookup_insert_eq.
    exists (c :: cs), w'. cbn [forEach_listener]. rewrite Hg.
    split; [exact Hrun|]. split; [cbn; by rewrite Hlen|].
    split; [|split; [|split; [|split]]].
    + constructor; [|exact Hnd]. intros Hin.
      rewrite Forall_forall in Hcs. destruct (Hcs c Hin) as [Hnone _].
      congruence.
    + constructor.
      * split; [exact Hc|]. eapply lookup_weaken; [exact Hc1|apply Hgr].
      * eapply Forall_impl; [exact Hcs|]. intros c' Hc'.
        eapply new_copy_weaken; [exact Hsub|reflexivity|exact Hc'].
    + rewrite Htr. cbn. by rewrite <- app_assoc.
    + by rewrite Hps.
    + eapply grows_trans; [|exact Hgr]. by constructor.
Qed.

(** C2: the code against the claim. Before [initStore], five of the seven
    operations throw the error naming them; [hasListeners] has no guard and
    answers [false], and [fireListeners] loops over the empty registry
    without reaching the guard in [getState]. Once the store is
    initialised no operation throws. *)
Theorem hasListeners_and_fireListeners_unguarded :
  (∀ sel, getState sel module_init =
          (Throw (NotInitializedError "store.getState"), module_init)) ∧
  (∀ u, setState u module_init =
        (Throw (NotInitializedError "store.setState"), module_init)) ∧
  (∀ f, addListener f module_init =
        (Throw (NotInitializedError "store.onStateChange.addListener"),
         module_init)) ∧
  (∀ f, removeListener f module_init =
        (Throw (NotInitializedError "store.onStateChange.removeListener"),
         module_init)) ∧
  (∀ f, hasListener f module_init =
        (Throw (NotInitializedError "store.onStateChange.hasListener"),
         module_init)) ∧
  hasListeners module_init = (Ok (VBool false), module_init) ∧
  fireListeners module_init = (Ok VUndefined, module_init) ∧
  (∀ w, storeReady w = true →
     (∀ v, ∃ x, (getState (SelValue v) w).1 = Ok x) ∧
     (∀ u, ∃ p, (setState u w).1 = Ok p) ∧
     (∀ f, (addListener f w).1 = Ok VUndefined) ∧
     (∀ f, (removeListener f w).1 = Ok VUndefined) ∧
     (∀ f, (hasListener f w).1 = Ok VUndefined) ∧
     (∃ b, (hasListeners w).1 = Ok (VBool b)) ∧
     (fireListeners w).1 = Ok VUndefined).
Proof.
  repeat (split; [by intros|]).
  intros w Hr. split; [intros v; by apply getState_ready_ok|].
  unfold setState, addListener, removeListener, hasListener, hasListeners.
  rewrite Hr. cbn [negb fst]. repeat (split; [by eexists|]).
  destruct (forEach_listener_ready (listeners w) w Hr) as (cs & w' & Hrun & _).
  unfold fireListeners. by rewrite Hrun.
Qed.

(** ** setState *)

Lemma setState_ready (u : update) (w : world) :
  storeReady w = true →
  setState u w =
    (Ok (length (promises w)),
     World true (state w) (listeners w) false
           (fun h nextState =>
              match composeNextState w h nextState with
              | Ok s => setter_step u h s
              | Throw err => Throw err
              end)
           (storePromise w) (jsheap w)
           (timers w ++ batch_timers (shouldUpdateState w) (length (promises w)) 1)
           (promises w ++ [Pending]) (trace w)).
Proof.
  intros Hr. unfold setState, batch_timers. rewrite Hr. cbn.
  destruct (shouldUpdateState w) eqn:Hs; unfold_setters; cbn;
    rewrite ?Hr, ?Hs; [|reflexivity].
  by rewrite <- app_assoc.
Qed.

Lemma setter_step_apply (u : update) (h : heap) (s : props) :
  update_returns u → setter_step u h s = Ok (apply_update h s u).
Proof.
  destruct u as [v|f|f]; [done|done|]. intros Hu. cbn in *.
  destruct (Hu s) as [r ->]. reflexivity.
Qed.

Lemma try_updates_returns (h : heap) (s : props) (us : list update) :
  Forall update_returns us → try_updates h s us = Ok (merge_updates h s us).
Proof.
  intros Hus. revert s. induction Hus as [|u us Hu _ IH]; intros s; [done|].
  cbn [try_updates]. rewrite (setter_step_apply u h s Hu). apply IH.
Qed.

Lemma batch_timers_cons (opens : bool) (p n : nat) :
  (batch_timers opens p 1 ++ batch_timers false (S p) n)%list =
  batch_timers opens p (S n).
Proof. unfold batch_timers. destruct opens; reflexivity. Qed.

(** What a batch of synchronous calls does to the world. *)
Lemma setStates_ready (us : list update) (w : world) :
  storeReady w = true →
  ∃ w',
    setStates us w = (Ok <$> seq (length (promises w)) (length us), w') ∧
    storeReady w' = true ∧ state w' = state w ∧ listeners w' = listeners w ∧
    jsheap w' = jsheap w ∧ trace w' = trace w ∧
    shouldUpdateState w' =
      match us with [] => shouldUpdateState w | _ => false end ∧
    (∀ h s, composeNextState w' h s =
            match composeNextState w h s with
            | Ok s' => try_updates h s' us
            | Throw err => Throw err
            end) ∧
    timers w' = (timers w ++ batch_timers (shouldUpdateState w)
                               (length (promises w)) (length us))%list ∧
    promises w' = (promises w ++ replicate (length us) Pending)%list.
Proof.
  revert w. induction us as [|u us IH]; intros w Hr.
  - exists w. cbn. unfold batch_timers. cbn.
    destruct (shouldUpdateState w); rewrite !app_nil_r; repeat split;
      try done; intros h s; by destruct (composeNextState w h s).
  - cbn [setStates]. rewrite (setState_ready u w Hr).
    match goal with |- context [setStates us ?w1] =>
      destruct (IH w1 eq_refl)
        as (w' & Hrun & Hr' & Hst & Hls & Hhp & Htr & Hsh & Hcomp & Htm & Hps)
    end.
    cbn in Hrun, Hst, Hls, Hhp, Htr, Hsh, Hcomp, Htm, Hps.
    exists w'. rewrite Hrun.
    split.
    { cbn. do 3 f_equal. by rewrite length_app, Nat.add_comm. }
    repeat (split; [assumption|]).
    split; [by destruct us|].
    split; [|split].
    + intros h s. rewrite Hcomp. cbn [try_updates].
      by destruct (composeNextState w h s).
    + rewrite Htm, <- app_assoc. f_equal.
      rewrite length_app, Nat.add_comm. cbn [length Nat.add].
      apply batch_timers_cons.
    + rewrite Hps, <- app_assoc. reflexivity.
Qed.

(** ** The merge of a batch *)

Lemma apply_update_extends (h h' : heap) (s : props) (u : update) :
  h ⊆ h' → update_allocated h u → apply_update h' s u = apply_update h s u.
Proof.
  intros Hsub Hu. destruct u as [v|f|f]; [|reflexivity|reflexivity]. cbn. f_equal.
  apply own_props_extends; [exact Hsub|]. by intros l ->.
Qed.

Lemma merge_updates_extends (h h' : heap) (s : props) (us : list update) :
  h ⊆ h' → Forall (update_allocated h) us →
  merge_updates h' s us = merge_updates h s us.
Proof.
  intros Hsub Hus. revert s. unfold merge_updates.
  induction Hus as [|u us Hu _ IH]; intros s; [reflexivity|].
  cbn [foldl]. by rewrite IH, (apply_update_extends h h').
Qed.

Lemma apply_update_dom (h : heap) (s : props) (u : update) :
  dom s ⊆ dom (apply_update h s u).
Proof.
  destruct u as [v|f|f]; cbn; [| |destruct (f s); [|done]];
    rewrite dom_union_L; set_solver.
Qed.

Lemma merge_updates_dom (h : heap) (s : props) (us : list update) :
  dom s ⊆ dom (merge_updates h s us).
Proof.
  revert s. unfold merge_updates. induction us as [|u us IH]; intros s; [done|].
  cbn [foldl]. etrans; [apply (apply_update_dom h s u)|apply IH].
Qed.

(** [Object.assign(state, nextState)] when [nextState] was spread from a
    copy of [state]: the result has the properties of [nextState]. *)
Lemma assign_absorbs (next s : props) : dom s ⊆ dom next → next ∪ s = next.
Proof.
  intros Hdom. apply map_eq. intros k. rewrite lookup_union.
  destruct (next !! k) as [x|] eqn:Hn; [by destruct (s !! k)|].
  destruct (s !! k) as [y|] eqn:Hs; [|reflexivity].
  assert (k ∈ dom next) as Hk by (apply Hdom, elem_of_dom; eauto).
  apply elem_of_dom in Hk as [z Hz]. congruence.
Qed.

(** ** The commit *)

Lemma commit_ready (w : world) :
  storeReady w = true →
  ∃ c0,
    jsheap w !! c0 = None ∧
    (∀ next,
       composeNextState w (<[c0 := HObject (state w)]> (jsheap w)) (state w)
         = Ok next →
       ∃ cs w',
         commit w = (Ok VUndefined, w') ∧
         state w' = next ∪ state w ∧
         storeReady w' = true ∧ shouldUpdateState w' = true ∧
         (∀ h s, composeNextState w' h s = Ok s) ∧
         listeners w' = listeners w ∧ timers w' = timers w ∧
         promises w' = promises w ∧ storePromise w' = storePromise w ∧
         jsheap w ⊆ jsheap w' ∧
         length cs = length (listeners w) ∧ NoDup cs ∧
         Forall (new_copy (state w') w w') cs ∧
         trace w' = (trace w ++ EvCommit (state w')
                       :: zip_with listener_event (listeners w) cs)%list) ∧
    (∀ err,
       composeNextState w (<[c0 := HObject (state w)]> (jsheap w)) (state w)
         = Throw err →
       commit w =
         (Throw err, set_jsheap (<[c0 := HObject (state w)]> (jsheap w)) w)).
Proof.
  intros Hr. destruct (getState_whole_copy VUndefined w Hr eq_refl) as (c0 & Hg & Hc0).
  set (h1 := <[c0 := HObject (state w)]> (jsheap w)).
  exists c0. split; [exact Hc0|]. split.
  - intros next Hnext.
    set (wa := set_composeNextState (fun _ s => Ok s)
                 (set_shouldUpdateState true
                   (log (EvCommit (next ∪ state w))
                     (set_state (next ∪ state w) (set_jsheap h1 w))))).
    destruct (forEach_listener_ready (listeners w) wa Hr)
      as (cs & w' & Hrun & Hlen & Hnd & Hcs & Htr & Hps & Hgr).
    assert (Hsub : jsheap w ⊆ jsheap wa) by (by apply insert_subseteq).
    assert (Hcommit : commit w = forEach_listener (listeners w) wa).
    { unfold commit. rewrite Hg. unfold wa. unfold_setters. cbn.
      rewrite lookup_insert_eq. cbn. unfold h1 in Hnext. by rewrite Hnext. }
    exists cs, w'. rewrite Hcommit.
    split; [exact Hrun|].
    destruct Hgr as [Hg1 Hg2 Hg3 Hg4 Hg5 Hg6 Hg7 Hg8 Hg9].
    split; [by rewrite Hg2|]. split; [by rewrite Hg1|].
    split; [by rewrite Hg4|]. split; [by rewrite Hg5|].
    split; [by rewrite Hg3|]. split; [by rewrite Hg7|].
    split; [by rewrite Hps|]. split; [by rewrite Hg6|].
    split; [by etrans|]. split; [exact Hlen|]. split; [exact Hnd|].
    split.
    + rewrite Hg2. eapply Forall_impl; [exact Hcs|]. intros c Hc.
      eapply new_copy_weaken; [exact Hsub|reflexivity|exact Hc].
    + rewrite Htr, Hg2. cbn. by rewrite <- app_assoc.
  - intros err Herr. unfold commit. rewrite Hg. unfold_setters. cbn.
    rewrite lookup_insert_eq. cbn. unfold h1 in Herr. by rewrite Herr.
Qed.

Lemma listener_events_calls (ls : list fnid) (cs : list loc) :
  length cs = length ls →
  omap listener_of (zip_with listener_event ls cs) = ls.
Proof.
  revert cs. induction ls as [|fn ls IH]; intros [|c cs] Hlen;
    try discriminate; [reflexivity|].
  cbn. f_equal. apply IH. by injection Hlen.
Qed.

(** ** Running the timers *)

Lemma run_tasks_app (e : environment) (ts1 ts2 : list task) (w : world) :
  run_tasks e (ts1 ++ ts2) w = run_tasks e ts2 (run_tasks e ts1 w).
Proof. revert w. induction ts1 as [|t ts1 IH]; intros w; [done|apply IH]. Qed.

Lemma old_timers_resolve (w : world) (ts : list task) :
  Forall (old_timer w) ts →
  ∃ qs, ts = TResolve <$> qs ∧ Forall (fun q => q < length (promises w)) qs.
Proof.
  induction 1 as [|t ts (q & -> & Hq) _ (qs & -> & Hqs)].
  - by exists [].
  - exists (q :: qs). split; [reflexivity|by constructor].
Qed.

(** Resolve timers never touch the state or the pending setter, whatever
    the timeout fulfils with. *)
Lemma run_resolves (e : environment) (qs : list nat) (w : world) :
  grows w (run_tasks e (TResolve <$> qs) w) ∧
  (∀ p, p ∉ qs →
     promises (run_tasks e (TResolve <$> qs) w) !! p = promises w !! p) ∧
  ∃ evs, trace (run_tasks e (TResolve <$> qs) w) = (trace w ++ evs)%list ∧
         Forall (fun ev => ∃ q, q ∈ qs ∧ settles q ev) evs.
Proof.
  revert w. induction qs as [|q qs IH]; intros w.
  - split; [apply grows_refl|]. split; [done|]. exists [].
    split; [by rewrite app_nil_r|constructor].
  - cbn [fmap list_fmap run_tasks run_task].
    destruct (IH (resolve q (timeout_value e) w)) as (Hgr & Hps & evs2 & Htr & Hevs).
    destruct (resolve_trace q (timeout_value e) w) as (evs1 & Htr1 & Hevs1).
    split; [eapply grows_trans; [apply resolve_grows|exact Hgr]|]. split.
    + intros p Hp. apply not_elem_of_cons in Hp as [Hne Hp].
      rewrite Hps by exact Hp. by apply resolve_other.
    + exists (evs1 ++ evs2)%list. split; [by rewrite Htr, Htr1, app_assoc|].
      apply Forall_app. split.
      * eapply Forall_impl; [exact Hevs1|]. intros ev Hev.
        exists q. split; [by left|exact Hev].
      * eapply Forall_impl; [exact Hevs|]. intros ev (q' & Hq' & Hev).
        exists q'. split; [by right|exact Hev].
Qed.

(** Resolve timers of distinct pending promises: each promise is
    fulfilled with an object of its own holding the current state. *)
Lemma run_pending_resolves (e : environment) (ps : list nat) (w : world) :
  storeReady w = true → string_key (SelValue (timeout_value e)) = None →
  NoDup ps → Forall (fun p => promises w !! p = Some Pending) ps →
  ∃ cs,
    length cs = length ps ∧ NoDup cs ∧
    Forall (new_copy (state w) w (run_tasks e (TResolve <$> ps) w)) cs ∧
    trace (run_tasks e (TResolve <$> ps) w) =
      (trace w ++ zip_with settle_event ps cs)%list ∧
    Forall2 (fun p c => promises (run_tasks e (TResolve <$> ps) w) !! p
                        = Some (Fulfilled (VRef c))) ps cs.
Proof.
  intros Hr Hk Hnd. revert w Hr.
  induction Hnd as [|p ps Hp Hnd IH]; intros w Hr Hpend.
  - exists []. cbn. rewrite app_nil_r. repeat split; constructor.
  - apply Forall_cons in Hpend as [Hp0 Hpend].
    destruct (resolve_pending p (timeout_value e) w Hr Hk Hp0)
      as (c & Hc & Hgr & Htr & Hps).
    set (w1 := resolve p (timeout_value e) w) in *.
    assert (Hr1 : storeReady w1 = true) by (by rewrite (g_ready _ _ Hgr)).
    assert (Hpend1 : Forall (fun q => promises w1 !! q = Some Pending) ps).
    { rewrite Forall_forall in Hpend |- *. intros q Hq.
      unfold w1. rewrite resolve_other; [by apply Hpend|]. by intros ->. }
    destruct (IH w1 Hr1 Hpend1) as (cs & Hlen & Hndc & Hcs & Htr' & Hful).
    destruct (run_resolves e ps w1) as (Hgr' & Hothers & _).
    cbn [fmap list_fmap run_tasks run_task]. fold w1.
    change (list_fmap nat task TResolve ps) with (TResolve <$> ps).
    rewrite (g_state _ _ Hgr) in Hcs.
    exists (c :: cs). split; [cbn; by rewrite Hlen|].
    split; [|split; [|split]].
    + constructor; [|exact Hndc]. intros Hin.
      rewrite Forall_forall in Hcs. destruct (Hcs c Hin) as [Hnone _].
      destruct Hc as [_ Hc]. congruence.
    + constructor.
      * eapply new_copy_weaken; [reflexivity|apply Hgr'|exact Hc].
      * eapply Forall_impl; [exact Hcs|]. intros c' Hc'.
        eapply new_copy_weaken; [apply Hgr|reflexivity|exact Hc'].
    + rewrite Htr', Htr. cbn. by rewrite <- app_assoc.
    + constructor; [|exact Hful].
      rewrite Hothers by exact Hp. rewrite Hps.
      apply list_lookup_insert_eq. by eapply lookup_lt_Some.
Qed.

(** ** One batch window, up to the end of its commit *)

Lemma batch_promises_pending (ps0 : list outcome) (n p : nat) :
  p ∈ seq (length ps0) n →
  (ps0 ++ replicate n Pending)%list !! p = Some Pending.
Proof.
  intros Hp. apply elem_of_seq in Hp as [Hge Hlt].
  rewrite lookup_app_r by exact Hge. apply lookup_replicate. split; [done|lia].
Qed.

Lemma batch_until_commit (e : environment) (w0 : world) (u : update)
    (us : list update) :
  window_start w0 → Forall (old_timer w0) (timers w0) →
  Forall (update_allocated (jsheap w0)) (u :: us) →
  Forall update_returns (u :: us) →
  ∃ w1 wc before lcs,
    setStates (u :: us) w0 =
      (Ok <$> seq (length (promises w0)) (S (length us)), w1) ∧
    timers w1 = (timers w0 ++ TCommit (length (promises w0))
                   :: (TResolve <$> seq (length (promises w0)) (S (length us))))%list ∧
    state w1 = state w0 ∧ jsheap w1 = jsheap w0 ∧
    Forall (fun p => promises w1 !! p = Some Pending)
           (seq (length (promises w0)) (S (length us))) ∧
    run_timers e w1 =
      run_tasks e (TResolve <$> seq (length (promises w0)) (S (length us)))
        (resolve (length (promises w0)) VUndefined wc) ∧
    state wc = merge_updates (jsheap w0) (state w0) (u :: us) ∧
    storeReady wc = true ∧ shouldUpdateState wc = true ∧
    (∀ h s, composeNextState wc h s = Ok s) ∧
    listeners wc = listeners w0 ∧ timers wc = [] ∧
    jsheap w0 ⊆ jsheap wc ∧
    Forall (fun p => promises wc !! p = Some Pending)
           (seq (length (promises w0)) (S (length us))) ∧
    trace wc = (trace w0 ++ before ++ EvCommit (state wc)
                  :: zip_with listener_event (listeners w0) lcs)%list ∧
    Forall (fun ev => ∃ q, q < length (promises w0) ∧ settles q ev) before ∧
    length lcs = length (listeners w0) ∧ NoDup lcs ∧
    Forall (new_copy (state wc) w1 wc) lcs.
Proof.
  intros (Hr & Hsh & Hid) Hold Halloc Hret.
  destruct (setStates_ready (u :: us) w0 Hr)
    as (w1 & Hrun & Hr1 & Hst & Hls & Hhp & Htr & _ & Hcomp & Htm & Hps).
  rewrite Hsh in Htm. unfold batch_timers in Htm.
  cbn [length app] in Hrun, Htm, Hps.
  destruct (old_timers_resolve w0 _ Hold) as (qs & Hqs & Hlt).
  set (p0 := length (promises w0)) in *. set (n := S (length us)) in *.
  set (wa := run_tasks e (TResolve <$> qs) (set_timers [] w1)).
  destruct (run_resolves e qs (set_timers [] w1)) as (Hgra & Hotha & evsa & Htra & Hevsa).
  fold wa in Hgra, Hotha, Htra.
  assert (Hra : storeReady wa = true) by (by rewrite (g_ready _ _ Hgra)).
  assert (Hsub0 : jsheap w0 ⊆ jsheap wa).
  { rewrite <- Hhp. apply (g_heap _ _ Hgra). }
  destruct (commit_ready wa Hra) as (c0 & Hc0 & Hcommitted & _).
  assert (Hnext : composeNextState wa (<[c0 := HObject (state wa)]> (jsheap wa))
                    (state wa) =
                  Ok (merge_updates (jsheap w0) (state w0) (u :: us))).
  { rewrite (g_compose _ _ Hgra), (g_state _ _ Hgra).
    change (composeNextState (set_timers [] w1)) with (composeNextState w1).
    change (state (set_timers [] w1)) with (state w1).
    rewrite Hcomp, Hid, Hst, (try_updates_returns _ _ _ Hret). f_equal.
    apply merge_updates_extends; [|exact Halloc].
    etrans; [exact Hsub0|]. by apply insert_subseteq. }
  destruct (Hcommitted _ Hnext)
    as (lcs & wc & Hcommit & Hstc & Hrc & Hshc & Hidc & Hlsc & Htmc
        & Hpsc & _ & Hsubc & Hlen & Hnd & Hcs & Htrc).
  assert (Hpend1 : Forall (fun p => promises w1 !! p = Some Pending) (seq p0 n)).
  { rewrite Forall_forall. intros p Hp. rewrite Hps.
    by apply batch_promises_pending. }
  exists w1, wc, evsa, lcs.
  split; [exact Hrun|]. split; [exact Htm|]. split; [exact Hst|].
  split; [exact Hhp|]. split; [exact Hpend1|]. split.
  { unfold run_timers. rewrite Htm, Hqs, run_tasks_app. fold wa.
    cbn [run_tasks run_task]. by rewrite Hcommit. }
  split.
  { rewrite Hstc, (g_state _ _ Hgra).
    change (state (set_timers [] w1)) with (state w1).
    rewrite Hst. apply assign_absorbs, merge_updates_dom. }
  split; [exact Hrc|]. split; [exact Hshc|]. split; [exact Hidc|].
  split; [by rewrite Hlsc, (g_listeners _ _ Hgra)|].
  split; [by rewrite Htmc, (g_timers _ _ Hgra)|].
  split; [by etrans|]. split.
  { rewrite Forall_forall in Hpend1 |- *. intros p Hp.
    rewrite Hpsc, Hotha; [by apply Hpend1|].
    intros Hin. rewrite Forall_forall in Hlt. apply Hlt in Hin.
    apply elem_of_seq in Hp. fold p0 in Hin. lia. }
  split.
  { rewrite Htrc, Htra, (g_listeners _ _ Hgra). cbn.
    by rewrite Htr, Hls, <- app_assoc. }
  split.
  { eapply Forall_impl; [exact Hevsa|]. intros ev (q & Hq & Hev).
    exists q. split; [|exact Hev]. rewrite Forall_forall in Hlt. by apply Hlt. }
  split; [rewrite Hlen, (g_listeners _ _ Hgra); cbn; by rewrite Hls|].
  split; [exact Hnd|].
  eapply Forall_impl; [exact Hcs|]. intros c Hc.
  eapply new_copy_weaken; [|reflexivity|exact Hc]. apply (g_heap _ _ Hgra).
Qed.

Lemma merge_updates_snoc (h : heap) (s : props) (us : list update) (u : update) :
  merge_updates h s (us ++ [u]) = apply_update h (merge_updates h s us) u.
Proof. unfold merge_updates. by rewrite foldl_app. Qed.

(** C1. A batch of synchronous [setState] calls that opens a window
    schedules one commit; every call adds one step to the pending setter,
    the steps composed in call order; nothing is committed before the
    timer fires, and once the timers have run the state is the
    left-to-right key-level merge of the updates on top of the state at
    the start of the batch, a function update being applied to the merge
    of the updates before it. The update callbacks of the batch return. *)
Theorem batch_commits_left_to_right_merge
    (e : environment) (w0 : world) (u : update) (us : list update) :
  window_start w0 → Forall (old_timer w0) (timers w0) →
  Forall (update_allocated (jsheap w0)) (u :: us) →
  Forall update_returns (u :: us) →
  ∃ w1,
    setStates (u :: us) w0 =
      (Ok <$> seq (length (promises w0)) (S (length us)), w1) ∧
    timers w1 = (timers w0 ++ TCommit (length (promises w0))
                   :: (TResolve <$> seq (length (promises w0)) (S (length us))))%list ∧
    (∀ h s, composeNextState w1 h s = Ok (merge_updates h s (u :: us))) ∧
    state w1 = state w0 ∧
    state (run_timers e w1) = merge_updates (jsheap w0) (state w0) (u :: us) ∧
    (∀ h s vs f, merge_updates h s (vs ++ [UpdFn f]) =
                 f (merge_updates h s vs) ∪ merge_updates h s vs).
Proof.
  intros Hws Hold Halloc Hret.
  destruct (batch_until_commit e w0 u us Hws Hold Halloc Hret)
    as (w1 & wc & before & lcs & Hrun & Htm & Hst & _ & _ & Hloop & Hstc & _).
  destruct Hws as (Hr & _ & Hid).
  destruct (setStates_ready (u :: us) w0 Hr)
    as (w1' & Hrun' & _ & _ & _ & _ & _ & _ & Hcomp & _).
  assert (w1' = w1) as -> by congruence.
  exists w1. split; [exact Hrun|]. split; [exact Htm|]. split.
  { intros h s. by rewrite Hcomp, Hid, (try_updates_returns _ _ _ Hret). }
  split; [exact Hst|]. split.
  - rewrite Hloop.
    destruct (run_resolves e (seq (length (promises w0)) (S (length us)))
                (resolve (length (promises w0)) VUndefined wc)) as (Hgr & _).
    rewrite (g_state _ _ Hgr).
    by rewrite (g_state _ _ (resolve_grows _ _ wc)).
  - intros h s vs f. apply merge_updates_snoc.
Qed.

(** C7. No promise of a batch is settled before the commit of its window:
    the promises are pending when the calls return, the trace of the timer
    run shows the commit and its listener calls before the first of them
    is fulfilled, and each is fulfilled with an object of its own that
    holds the committed state, the same content for every call of the
    batch. The timeout is assumed to fulfil with a value that [getState]
    does not read as a key, and the update callbacks of the batch to
    return. *)
Theorem setState_promises_fulfil_after_commit
    (e : environment) (w0 : world) (u : update) (us : list update) :
  window_start w0 → Forall (old_timer w0) (timers w0) →
  Forall (update_allocated (jsheap w0)) (u :: us) →
  Forall update_returns (u :: us) →
  string_key (SelValue (timeout_value e)) = None →
  ∃ w1 before lcs cs,
    setStates (u :: us) w0 =
      (Ok <$> seq (length (promises w0)) (S (length us)), w1) ∧
    Forall (fun p => promises w1 !! p = Some Pending)
           (seq (length (promises w0)) (S (length us))) ∧
    trace (run_timers e w1) =
      (trace w0 ++ before ++ EvCommit (state (run_timers e w1))
         :: zip_with listener_event (listeners w0) lcs
         ++ zip_with settle_event (seq (length (promises w0)) (S (length us))) cs)%list ∧
    Forall (fun ev => ∃ q, q < length (promises w0) ∧ settles q ev) before ∧
    length cs = S (length us) ∧ NoDup cs ∧
    Forall (new_copy (state (run_timers e w1)) w1 (run_timers e w1)) cs ∧
    Forall2 (fun p c => promises (run_timers e w1) !! p = Some (Fulfilled (VRef c)))
            (seq (length (promises w0)) (S (length us))) cs ∧
    state (run_timers e w1) = merge_updates (jsheap w0) (state w0) (u :: us).
Proof.
  intros Hws Hold Halloc Hret Hk.
  destruct (batch_until_commit e w0 u us Hws Hold Halloc Hret)
    as (w1 & wc & before & lcs & Hrun & _ & _ & Hhp & Hpend1 & Hloop & Hstc & Hrc
        & _ & _ & _ & _ & Hsubc & Hpendc & Htrc & Hbefore & _).
  set (p0 := length (promises w0)) in *.
  cbn [seq] in Hpendc, Hloop.
  apply Forall_cons in Hpendc as [Hp0 Hpendc].
  destruct (resolve_pending p0 VUndefined wc Hrc eq_refl Hp0)
    as (c & Hc & Hgr & Htr & Hps).
  set (wr := resolve p0 VUndefined wc) in *.
  assert (Hrr : storeReady wr = true) by (by rewrite (g_ready _ _ Hgr)).
  assert (Hsettled : resolve p0 (timeout_value e) wr = wr).
  { apply resolve_settled. rewrite Hps, list_lookup_insert_eq; [done|].
    by eapply lookup_lt_Some. }
  cbn [fmap list_fmap run_tasks run_task] in Hloop. rewrite Hsettled in Hloop.
  change (list_fmap nat task TResolve (seq (S p0) (length us)))
    with (TResolve <$> seq (S p0) (length us)) in Hloop.
  assert (Hpendr : Forall (fun p => promises wr !! p = Some Pending)
                          (seq (S p0) (length us))).
  { rewrite Forall_forall in Hpendc |- *. intros p Hp. rewrite Hps.
    rewrite list_lookup_insert_ne; [by apply Hpendc|].
    apply elem_of_seq in Hp. lia. }
  destruct (run_pending_resolves e (seq (S p0) (length us)) wr Hrr Hk
              (NoDup_seq _ _) Hpendr)
    as (cs & Hlen & Hnd & Hcs & Htr2 & Hful).
  destruct (run_resolves e (seq (S p0) (length us)) wr) as (Hgr2 & Hoth2 & _).
  rewrite <- Hloop in Hcs, Htr2, Hful, Hgr2, Hoth2.
  set (w2 := run_timers e w1) in *.
  assert (Hst2 : state w2 = state wc).
  { by rewrite (g_state _ _ Hgr2), (g_state _ _ Hgr). }
  assert (Hsub1 : jsheap w1 ⊆ jsheap wc) by (by rewrite Hhp).
  exists w1, before, lcs, (c :: cs). fold w2.
  split; [exact Hrun|]. split; [exact Hpend1|]. split.
  { rewrite Htr2, Htr, Htrc, Hst2. cbn [seq zip_with].
    rewrite <- !app_assoc. cbn. by rewrite <- ?app_assoc. }
  split; [exact Hbefore|]. split; [cbn; by rewrite Hlen, length_seq|].
  split.
  { constructor; [|exact Hnd]. intros Hin.
    rewrite Forall_forall in Hcs. destruct (Hcs c Hin) as [Hnone _].
    destruct Hc as [_ Hc]. congruence. }
  split.
  { rewrite Hst2. constructor.
    - eapply new_copy_weaken; [exact Hsub1|apply Hgr2|exact Hc].
    - rewrite (g_state _ _ Hgr) in Hcs.
      eapply Forall_impl; [exact Hcs|]. intros c' Hc'.
      eapply new_copy_weaken; [|reflexivity|exact Hc'].
      etrans; [exact Hsub1|apply Hgr]. }
  split; [|by rewrite Hst2].
  cbn [seq]. constructor; [|exact Hful].
  rewrite Hoth2.
  - rewrite Hps. apply list_lookup_insert_eq. by eapply lookup_lt_Some.
  - intros Hin. apply elem_of_seq in Hin. lia.
Qed.

(** ** The hypotheses of the batch theorems hold in every reachable world *)

Lemma forEach_listener_grows (ls : list fnid) (w : world) :
  grows w (forEach_listener ls w).2 ∧
  promises (forEach_listener ls w).2 = promises w.
Proof.
  revert w. induction ls as [|fn ls IH]; intros w.
  - split; [apply grows_refl|reflexivity].
  - cbn [forEach_listener].
    pose proof (getState_grows (SelValue VUndefined) w) as Hg.
    pose proof (getState_frame (SelValue VUndefined) w) as [Hsame _].
    destruct (getState (SelValue VUndefined) w) as [[v|err] w1]; cbn in Hg, Hsame.
    + destruct (IH (log (EvListener fn v) w1)) as [Hgr Hps]. split.
      * eapply grows_trans; [exact Hg|].
        eapply grows_trans; [apply grows_log|exact Hgr].
      * rewrite Hps, Hsame. reflexivity.
    + split; [exact Hg|]. by rewrite Hsame.
Qed.

Lemma resolves_below_weaken (n m : nat) (ts : list task) :
  (n ≤ m)%nat → resolves_below n ts → resolves_below m ts.
Proof.
  intros Hle Hts. eapply Forall_impl; [exact Hts|].
  intros t (q & -> & Hq). exists q. split; [reflexivity|lia].
Qed.

Lemma window_invariant_grows (w w' : world) :
  grows w w' → window_invariant w → window_invariant w'.
Proof.
  intros [Hr _ _ Hsh Hc _ Ht _ Hp]. unfold window_invariant.
  by rewrite Hsh, Hc, Ht, Hp, Hr.
Qed.

Lemma window_invariant_setState (u : update) (w : world) :
  window_invariant w → window_invariant (setState u w).2.
Proof.
  intros Hinv. destruct (storeReady w) eqn:Hr.
  - rewrite (setState_ready u w Hr). unfold window_invariant in *. cbn.
    split; [reflexivity|]. rewrite length_app. cbn [length].
    set (n := length (promises w)) in *.
    assert (Hlast : resolves_below (n + 1) [TResolve n]).
    { constructor; [|constructor]. exists n. split; [reflexivity|lia]. }
    destruct (shouldUpdateState w).
    + destruct Hinv as [_ Hts]. right. exists (timers w), n, [TResolve n].
      split; [reflexivity|]. split; [|exact Hlast].
      eapply resolves_below_weaken; [|exact Hts]. lia.
    + destruct Hinv as (_ & [Hts|(ts1 & p & ts2 & Htm & H1 & H2)]).
      * left. unfold batch_timers. cbn. apply Forall_app. split; [|exact Hlast].
        eapply resolves_below_weaken; [|exact Hts]. lia.
      * right. exists ts1, p, (ts2 ++ [TResolve n])%list. split.
        -- unfold batch_timers. cbn. by rewrite Htm, <- app_assoc.
        -- split; [eapply resolves_below_weaken; [|exact H1]; lia|].
           apply Forall_app. split; [|exact Hlast].
           eapply resolves_below_weaken; [|exact H2]. lia.
  - unfold setState. by rewrite Hr.
Qed.

Lemma window_invariant_call (e : environment) (c : call) (w : world) :
  window_invariant w → window_invariant (do_call e c w).
Proof.
  intros Hinv. destruct c as [i|sel|u|f|f|f| | |h]; cbn [do_call].
  - unfold initStore. destruct (storeReady w) eqn:Hr; [exact Hinv|].
    destruct (isBackgroundPage e) as [[|]|]; try exact Hinv.
    unfold window_invariant in *. cbn.
    destruct (shouldUpdateState w); [exact Hinv|].
    destruct Hinv as [Hready _]. congruence.
  - eapply window_invariant_grows; [apply getState_grows|exact Hinv].
  - by apply window_invariant_setState.
  - unfold addListener. by destruct (storeReady w).
  - unfold removeListener. by destruct (storeReady w).
  - unfold hasListener. by destruct (storeReady w).
  - exact Hinv.
  - eapply window_invariant_grows; [|exact Hinv].
    apply forEach_listener_grows.
  - exact Hinv.
Qed.

Lemma window_invariant_timer (e : environment) (t : task) (ts : list task)
    (w : world) :
  timers w = t :: ts → window_invariant w →
  window_invariant (run_task e t (set_timers ts w)).
Proof.
  intros Htm Hinv. unfold window_invariant in Hinv.
  destruct (shouldUpdateState w) eqn:Hsh.
  - destruct Hinv as [Hid Hts]. rewrite Htm in Hts.
    apply Forall_cons in Hts as [(q & -> & Hq) Hts]. cbn [run_task].
    eapply window_invariant_grows; [apply resolve_grows|].
    unfold window_invariant. cbn. rewrite Hsh. by split.
  - destruct Hinv as (Hr & [Hts|(ts1 & p & ts2 & Htm' & H1 & H2)]).
    { rewrite Htm in Hts.
      apply Forall_cons in Hts as [(q & -> & Hq) Hts]. cbn [run_task].
      eapply window_invariant_grows; [apply resolve_grows|].
      unfold window_invariant. cbn. rewrite Hsh. split; [exact Hr|by left]. }
    rewrite Htm in Htm'. destruct ts1 as [|t1 ts1]; cbn in Htm'.
    + injection Htm' as -> ->. cbn [run_task].
      destruct (commit_ready (set_timers ts2 w) Hr) as (c0 & _ & Hok & Habort).
      destruct (composeNextState (set_timers ts2 w)
                  (<[c0 := HObject (state (set_timers ts2 w))]>
                     (jsheap (set_timers ts2 w)))
                  (state (set_timers ts2 w))) as [next|err].
      * destruct (Hok next eq_refl)
          as (cs & wc & Hcommit & _ & _ & Hshc & Hidc & _ & Htmc & Hpsc & _).
        rewrite Hcommit.
        eapply window_invariant_grows; [apply resolve_grows|].
        unfold window_invariant. rewrite Hshc, Htmc, Hpsc. by split.
      * rewrite (Habort err eq_refl).
        unfold window_invariant. cbn. rewrite Hsh. split; [exact Hr|by left].
    + injection Htm' as -> ->.
      apply Forall_cons in H1 as [(q & -> & Hq) H1]. cbn [run_task].
      eapply window_invariant_grows; [apply resolve_grows|].
      unfold window_invariant. cbn. rewrite Hsh. split; [exact Hr|].
      right. by exists ts1, p, ts2.
Qed.

Lemma reachable_window_invariant (e : environment) (w : world) :
  reachable e w → window_invariant w.
Proof.
  induction 1 as [|c w _ IH|t ts w _ IH Htm].
  - split; [reflexivity|constructor].
  - by apply window_invariant_call.
  - by apply window_invariant_timer.
Qed.

(** Whenever an initialised store is about to schedule a commit, no batch
    is open and the queued timers are resolves of earlier calls: the
    hypotheses of the batch theorems describe every window the program
    can open. *)
Lemma reachable_window_start (e : environment) (w : world) :
  reachable e w → storeReady w = true → shouldUpdateState w = true →
  window_start w ∧ Forall (old_timer w) (timers w).
Proof.
  intros Hreach Hr Hsh. apply reachable_window_invariant in Hreach.
  unfold window_invariant in Hreach. rewrite Hsh in Hreach.
  destruct Hreach as [Hid Hts]. by repeat split.
Qed.

(** ** The theorems on a concrete store *)

Example fruit_world_get_apples :
  (getState (SelValue (VStr "apples")) fruit_world).1 = Ok (VNum 2).
Proof. reflexivity. Qed.

Example fruit_world_two_increments :
  state (run_timers background_page
           (setStates [UpdFn add_apple; UpdFn add_apple] fruit_world).2)
    !! "apples" = Some (VNum 4).
Proof. vm_compute. reflexivity. Qed.

Example fruit_world_later_reachable :
  reachable background_page fruit_world_later.
Proof.
  apply (reach_timer background_page (TCommit 0) [TResolve 0]
           (do_call background_page (CallSetState (UpdValue (VRef 2%positive)))
                    fruit_world)); [|reflexivity].
  apply reach_call.
  apply (reach_call _ (CallAddListener 6)).
  apply (reach_call _ (CallAddListener 5)).
  apply (reach_call _ (CallInitStore (VRef 1%positive))).
  apply (reach_call _ (CallerHeap fruit_heap)).
  apply reach_load.
Qed.

Lemma fruit_world_window : window_start fruit_world.
Proof. split; [reflexivity|]. split; [reflexivity|]. intros h s. reflexivity. Defined.

Lemma fruit_world_later_window : window_start fruit_world_later.
Proof. split; [reflexivity|]. split; [reflexivity|]. intros h s. reflexivity. Defined.

Lemma fruit_world_later_timers :
  Forall (old_timer fruit_world_later) (timers fruit_world_later).
Proof.
  constructor; [|constructor]. exists 0. split; [reflexivity|].
  vm_compute. constructor.
Defined.

Lemma fruit_updates_allocated (h : heap) :
  is_Some (h !! 2%positive) →
  Forall (update_allocated h)
         [UpdValue (VRef 2%positive); UpdFn add_apple; UpdFn add_apple].
Proof. intros H. repeat constructor. exact H. Defined.

Lemma batch_commits_left_to_right_merge_witness :
  state (run_timers background_page
           (setStates [UpdValue (VRef 2%positive); UpdFn add_apple; UpdFn add_apple]
                      fruit_world).2)
  = <["apples" := VNum 4]> (<["pears" := VNum 1]> {["basket" := VRef 3%positive]}).
Proof.
  destruct (batch_commits_left_to_right_merge background_page fruit_world
              (UpdValue (VRef 2%positive)) [UpdFn add_apple; UpdFn add_apple]
              fruit_world_window)
    as (w1 & Hrun & _ & _ & _ & Hst & _).
  - constructor.
  - apply fruit_updates_allocated. eexists. vm_compute. reflexivity.
  - repeat constructor.
  - rewrite Hrun. cbn [snd]. rewrite Hst. vm_compute. reflexivity.
Defined.

Lemma setState_promises_fulfil_after_commit_witness :
  ∃ w2 cs,
    w2 = run_timers background_page
           (setStates [UpdFn add_apple; UpdFn add_apple] fruit_world_later).2 ∧
    NoDup cs ∧
    Forall2 (fun p c => promises w2 !! p = Some (Fulfilled (VRef c))) [1; 2] cs ∧
    Forall (fun c => jsheap w2 !! c = Some (HObject (state w2))) cs ∧
    state w2 !! "apples" = Some (VNum 4).
Proof.
  destruct (setState_promises_fulfil_after_commit background_page
              fruit_world_later (UpdFn add_apple) [UpdFn add_apple]
              fruit_world_later_window fruit_world_later_timers)
    as (w1 & before & lcs & cs & Hrun & _ & _ & _ & _ & Hnd & Hcs & Hful & Hst).
  - repeat constructor.
  - repeat constructor.
  - reflexivity.
  - rewrite Hrun. cbn [snd]. exists (run_timers background_page w1), cs.
    split; [reflexivity|]. split; [exact Hnd|]. split; [exact Hful|].
    split.
    + eapply Forall_impl; [exact Hcs|]. intros c Hc. apply Hc.
    + rewrite Hst. vm_compute. reflexivity.
Defined.

Example getState_copies_the_basket :
  ∃ l',
    getState (SelValue (VStr "basket")) fruit_world =
      (Ok (VRef l'),
       set_jsheap (<[l' := HArray [VNum 1; VNum 2]]> (jsheap fruit_world))
                  fruit_world) ∧
    l' ≠ 3%positive ∧
    getState (SelValue (VStr "apples")) fruit_world = (Ok (VNum 2), fruit_world).
Proof.
  destruct (getState_returns_shallow_copies fruit_world eq_refl)
    as (_ & _ & Hcopy & Hscalar).
  destruct (Hcopy "basket" 3%positive (HArray [VNum 1; VNum 2]))
    as (l' & Hget & Hne & _); [discriminate|reflexivity|reflexivity|exact I|].
  exists l'. split; [exact Hget|]. split; [exact Hne|].
  apply Hscalar; [discriminate|reflexivity|discriminate].
Qed.

(** ** What every move of the page keeps *)

Lemma commit_keeps (w : world) :
  storeReady (commit w).2 = storeReady w ∧
  storePromise (commit w).2 = storePromise w ∧
  listeners (commit w).2 = listeners w ∧
  promises (commit w).2 = promises w ∧
  dom (state w) ⊆ dom (state (commit w).2).
Proof.
  unfold commit.
  pose proof (getState_frame (SelValue VUndefined) w) as [Hsame _].
  destruct (getState (SelValue VUndefined) w) as [[copy|err] w1];
    cbn [snd] in Hsame; [|by rewrite Hsame].
  destruct (composeNextState w1 (jsheap w1) (own_props (jsheap w1) copy))
    as [nextState|err]; [|by rewrite Hsame].
  match goal with |- context [forEach_listener ?ls ?wa] =>
    destruct (forEach_listener_grows ls wa) as [Hgr Hps]; rewrite Hps;
    rewrite (g_ready _ _ Hgr), (g_storePromise _ _ Hgr),
      (g_listeners _ _ Hgr), (g_state _ _ Hgr)
  end.
  rewrite Hsame. cbn. repeat (split; [reflexivity|]).
  rewrite dom_union_L. set_solver.
Qed.

Lemma commit_not_ready (w : world) :
  storeReady w = false →
  commit w = (notConnectedError "store.getState", w).
Proof. intros Hr. unfold commit, getState. by rewrite Hr. Qed.

Lemma run_task_keeps (e : environment) (t : task) (w : world) :
  storeReady (run_task e t w) = storeReady w ∧
  storePromise (run_task e t w) = storePromise w ∧
  listeners (run_task e t w) = listeners w ∧
  length (promises (run_task e t w)) = length (promises w) ∧
  dom (state w) ⊆ dom (state (run_task e t w)).
Proof.
  destruct t as [p|p]; cbn [run_task].
  - destruct (commit_keeps w) as (Hr & Hsp & Hls & Hps & Hdom).
    destruct (commit w) as [[v|err] w1]; cbn [snd] in *.
    + pose proof (resolve_grows p v w1) as Hgr.
      rewrite (g_ready _ _ Hgr), (g_storePromise _ _ Hgr),
        (g_listeners _ _ Hgr), (g_plen _ _ Hgr), (g_state _ _ Hgr).
      by rewrite Hr, Hsp, Hls, Hps.
    + by rewrite Hr, Hsp, Hls, Hps.
  - pose proof (resolve_grows p (timeout_value e) w) as Hgr.
    rewrite (g_ready _ _ Hgr), (g_storePromise _ _ Hgr),
      (g_listeners _ _ Hgr), (g_plen _ _ Hgr), (g_state _ _ Hgr).
    done.
Qed.

Lemma do_call_keeps (e : environment) (c : call) (w : world) :
  (storeReady w = true → storeReady (do_call e c w) = true) ∧
  (storePromise w = true → storePromise (do_call e c w) = true) ∧
  dom (state w) ⊆ dom (state (do_call e c w)).
Proof.
  destruct c as [i|sel|u|f|f|f| | |h]; cbn [do_call].
  - unfold initStore. destruct (storeReady w) eqn:Hr; cbn [snd]; [done|].
    destruct (isBackgroundPage e) as [[|]|]; cbn [snd]; try done. cbn.
    repeat (split; [done|]). rewrite dom_union_L. set_solver.
  - pose proof (getState_grows sel w) as Hgr.
    by rewrite (g_ready _ _ Hgr), (g_storePromise _ _ Hgr), (g_state _ _ Hgr).
  - unfold setState. destruct (storeReady w) eqn:Hr; cbn [negb snd]; [|done].
    destruct (shouldUpdateState w) eqn:Hs; unfold_setters; cbn; by rewrite ?Hs.
  - unfold addListener. by destruct (storeReady w) eqn:Hr.
  - unfold removeListener. by destruct (storeReady w) eqn:Hr.
  - unfold hasListener. by destruct (storeReady w) eqn:Hr.
  - done.
  - destruct (forEach_listener_grows (listeners w) w) as [Hgr _].
    unfold fireListeners.
    by rewrite (g_ready _ _ Hgr), (g_storePromise _ _ Hgr), (g_state _ _ Hgr).
  - done.
Qed.

Lemma step_keeps (e : environment) (w w' : world) :
  step e w w' →
  (storeReady w = true → storeReady w' = true) ∧
  (storePromise w = true → storePromise w' = true) ∧
  dom (state w) ⊆ dom (state w').
Proof.
  intros [c w0|t ts w0 Htm]; [apply do_call_keeps|].
  destruct (run_task_keeps e t (set_timers ts w0)) as (Hr & Hsp & _ & _ & Hdom).
  rewrite Hr, Hsp. by repeat split.
Qed.

Lemma reachable_steps (e : environment) (w : world) :
  reachable e w ↔ steps e module_init w.
Proof.
  split.
  - induction 1 as [|c w _ IH|t ts w _ IH Htm]; [constructor|..].
    + eapply steps_more; [exact IH|constructor].
    + eapply steps_more; [exact IH|by constructor].
  - intros H. remember module_init as w0 eqn:Hw0.
    induction H as [w|w1 w2 w3 _ IH Hstep]; subst; [constructor|].
    destruct Hstep as [c w2|t ts w2 Htm].
    + apply reach_call. by apply IH.
    + eapply reach_timer; [by apply IH|exact Htm].
Qed.

(** X1. Readiness is irreversible and the state never loses a key: over
    any number of calls and timer firings an initialised store stays
    initialised, the published store promise stays resolved, and every
    key of the state is still a key afterwards. *)
Theorem store_never_shrinks (e : environment) (w w' : world) :
  steps e w w' →
  (storeReady w = true → storeReady w' = true) ∧
  (storePromise w = true → storePromise w' = true) ∧
  dom (state w) ⊆ dom (state w').
Proof.
  induction 1 as [w|w1 w2 w3 _ (IHr & IHp & IHd) Hstep]; [done|].
  destruct (step_keeps e w2 w3 Hstep) as (Hr & Hp & Hd).
  split; [tauto|]. split; [tauto|]. by etrans.
Qed.

Lemma not_ready_before (e : environment) (w w' : world) :
  step e w w' → storeReady w' = false → storeReady w = false.
Proof.
  intros Hstep Hr'. destruct (step_keeps e w w' Hstep) as (Hr & _).
  destruct (storeReady w); [|reflexivity]. by rewrite Hr in Hr'.
Qed.

Lemma reachable_not_ready_pristine (e : environment) (w : world) :
  reachable e w → storeReady w = false → w = set_jsheap (jsheap w) module_init.
Proof.
  induction 1 as [|c w _ IH|t ts w _ IH Htm]; intros Hr; [reflexivity|..].
  - pose proof (not_ready_before e w _ (step_call e c w) Hr) as Hr0.
    specialize (IH Hr0). revert Hr. rewrite IH. generalize (jsheap w) as h.
    intros h Hr. destruct c as [i|sel|u|f|f|f| | |h']; try reflexivity.
    cbn in Hr |- *. unfold initStore in *. cbn in Hr |- *.
    destruct (isBackgroundPage e) as [[|]|]; try reflexivity. discriminate.
  - pose proof (not_ready_before e w _ (step_timer e t ts w Htm) Hr) as Hr0.
    specialize (IH Hr0). rewrite IH in Htm. discriminate.
Qed.

Lemma fruit_world_later_steps : steps background_page fruit_world fruit_world_later.
Proof.
  eapply steps_more.
  - eapply steps_more; [apply steps_refl|].
    apply (step_call _ (CallSetState (UpdValue (VRef 2%positive)))).
  - apply (step_timer background_page (TCommit 0) [TResolve 0]). reflexivity.
Defined.

Lemma store_never_shrinks_witness :
  storeReady fruit_world_later = true ∧
  dom (state fruit_world) ⊆ dom (state fruit_world_later).
Proof.
  destruct (store_never_shrinks background_page fruit_world fruit_world_later
              fruit_world_later_steps) as (Hr & _ & Hd).
  split; [apply Hr; reflexivity|exact Hd].
Defined.

(** X2. Before [initStore] has succeeded nothing has happened: in every
    world the page can reach with the readiness flag still false, the
    state is empty, no listener is registered, no timer or promise exists
    and nothing was observed; so [hasListeners] answers [false] and
    [fireListeners] returns without throwing, whatever was called before. *)
Theorem nothing_happens_before_initStore (e : environment) (w : world) :
  reachable e w → storeReady w = false →
  state w = ∅ ∧ listeners w = [] ∧ timers w = [] ∧ promises w = [] ∧
  trace w = [] ∧ storePromise w = false ∧ shouldUpdateState w = true ∧
  hasListeners w = (Ok (VBool false), w) ∧
  fireListeners w = (Ok VUndefined, w).
Proof.
  intros Hreach Hr.
  pose proof (reachable_not_ready_pristine e w Hreach Hr) as Hw.
  rewrite Hw. by repeat split.
Qed.

Lemma nothing_happens_before_initStore_witness :
  state refused_world = ∅ ∧ listeners refused_world = [] ∧
  fireListeners refused_world = (Ok VUndefined, refused_world).
Proof.
  destruct (nothing_happens_before_initStore options_page refused_world)
    as (Hs & Hl & _ & _ & _ & _ & _ & _ & Hf).
  - do 5 apply reach_call. apply reach_load.
  - reflexivity.
  - by repeat split.
Defined.

(** ** Every promise of [setState] is fulfilled *)

Lemma resolve_pending_ready (p : nat) (v : value) (w : world) :
  storeReady w = true → promises w !! p = Some Pending →
  ∃ x, promises (resolve p v w) = <[p := Fulfilled x]> (promises w).
Proof.
  intros Hr Hp. unfold resolve. rewrite Hp.
  destruct (getState_ready_ok v w Hr) as [x Hx].
  pose proof (getState_frame (SelValue v) w) as [Hsame _].
  destruct (getState (SelValue v) w) as [r w1]. cbn [fst snd] in *. subst r.
  exists x. cbn. by rewrite Hsame.
Qed.

Lemma commit_timers (w : world) : timers (commit w).2 = timers w.
Proof.
  unfold commit.
  pose proof (getState_frame (SelValue VUndefined) w) as [Hsame _].
  destruct (getState (SelValue VUndefined) w) as [[copy|err] w1];
    cbn [snd] in Hsame; [|by rewrite Hsame].
  destruct (composeNextState w1 (jsheap w1) (own_props (jsheap w1) copy))
    as [nextState|err]; [|by rewrite Hsame].
  match goal with |- context [forEach_listener ?ls ?wa] =>
    destruct (forEach_listener_grows ls wa) as [Hgr _];
    rewrite (g_timers _ _ Hgr)
  end.
  by rewrite Hsame.
Qed.

Lemma settling_resolve (q : nat) (v : value) (ts0 ts : list task) (w : world) :
  (∀ p, p ≠ q → TResolve p ∈ ts0 → TResolve p ∈ ts) →
  settling ts0 w → settling ts (resolve q v w).
Proof.
  intros Htail (Hready & Hpend & Hrej).
  pose proof (resolve_grows q v w) as Hgr.
  destruct (promises w !! q) as [o|] eqn:Hq;
    [destruct o as [|x|err]|].
  - assert (Hr : storeReady w = true).
    { destruct Hready as [Hnil|Hr]; [|exact Hr]. by rewrite Hnil in Hq. }
    destruct (resolve_pending_ready q v w Hr Hq) as [x Hx].
    split; [right; by rewrite (g_ready _ _ Hgr)|]. rewrite Hx. split.
    + intros p Hpp. destruct (decide (p = q)) as [->|Hne].
      * rewrite list_lookup_insert_eq in Hpp by (by eapply lookup_lt_Some).
        discriminate.
      * rewrite list_lookup_insert_ne in Hpp by done.
        apply Htail; [exact Hne|by apply Hpend].
    + intros p err Hpp. destruct (decide (p = q)) as [->|Hne].
      * rewrite list_lookup_insert_eq in Hpp by (by eapply lookup_lt_Some).
        discriminate.
      * rewrite list_lookup_insert_ne in Hpp by done. by eapply Hrej.
  - rewrite resolve_settled by (by rewrite Hq).
    split; [exact Hready|]. split; [|exact Hrej].
    intros p Hpp. apply Htail; [|by apply Hpend]. intros ->. congruence.
  - by destruct (Hrej q err).
  - rewrite resolve_settled by (by rewrite Hq).
    split; [exact Hready|]. split; [|exact Hrej].
    intros p Hpp. apply Htail; [|by apply Hpend]. intros ->. congruence.
Qed.

Lemma settling_run_task (e : environment) (t : task) (ts : list task) (w : world) :
  settling (t :: ts) w → settling ts (run_task e t w).
Proof.
  intros Hset. destruct t as [p0|q]; cbn [run_task].
  - destruct (commit_keeps w) as (Hr & _ & _ & Hps & _).
    assert (Htail : ∀ p, TResolve p ∈ TCommit p0 :: ts → TResolve p ∈ ts).
    { intros p Hin. apply elem_of_cons in Hin as [Heq|Hin]; [discriminate|done]. }
    assert (Hset1 : settling (TCommit p0 :: ts) (commit w).2).
    { destruct Hset as (Hready & Hpend & Hrej).
      split; [by rewrite Hps, Hr|]. by rewrite Hps. }
    destruct (commit w) as [[v|err] w1]; cbn [snd] in *.
    + eapply settling_resolve; [|exact Hset1]. intros p _. apply Htail.
    + destruct Hset1 as (H1 & H2 & H3). split; [exact H1|]. split; [|exact H3].
      intros p Hp. by apply Htail, H2.
  - eapply settling_resolve; [|exact Hset].
    intros p Hne Hin. apply elem_of_cons in Hin as [Heq|Hin]; [congruence|done].
Qed.

Lemma settling_run_tasks (e : environment) (ts : list task) (w : world) :
  settling ts w →
  settling [] (run_tasks e ts w) ∧
  length (promises (run_tasks e ts w)) = length (promises w).
Proof.
  revert w. induction ts as [|t ts IH]; intros w Hset; [done|].
  cbn [run_tasks].
  destruct (IH (run_task e t w)) as [Hfin Hlen]; [by apply settling_run_task|].
  split; [exact Hfin|]. rewrite Hlen.
  by destruct (run_task_keeps e t w) as (_ & _ & _ & Hl & _).
Qed.

Lemma settling_weaken (ts ts' : list task) (w w' : world) :
  (∀ p, TResolve p ∈ ts → TResolve p ∈ ts') →
  storeReady w' = storeReady w → promises w' = promises w →
  settling ts w → settling ts' w'.
Proof.
  intros Hts Hr Hps (H1 & H2 & H3). unfold settling. rewrite Hr, Hps.
  split; [exact H1|]. split; [|exact H3]. intros p Hp. by apply Hts, H2.
Qed.

Lemma reachable_settling (e : environment) (w : world) :
  reachable e w → settling (timers w) w.
Proof.
  induction 1 as [|c w _ IH|t ts w _ IH Htm].
  - split; [by left|].
    split; [intros p Hp; discriminate Hp|intros p err Hp; discriminate Hp].
  - destruct c as [i|sel|u|f|f|f| | |h]; cbn [do_call].
    + unfold initStore. destruct (storeReady w) eqn:Hr; [exact IH|].
      destruct (isBackgroundPage e) as [[|]|]; try exact IH.
      destruct IH as (H1 & H2 & H3). split; [by right|]. by split.
    + pose proof (getState_frame sel w) as [Hsame _]. rewrite Hsame.
      eapply settling_weaken; [| | |exact IH]; done.
    + destruct (storeReady w) eqn:Hr; [|unfold setState; by rewrite Hr].
      rewrite (setState_ready u w Hr). destruct IH as (H1 & H2 & H3).
      split; [by right|]. cbn. split.
      * intros p Hp. apply elem_of_app.
        destruct (decide (p = length (promises w))) as [->|Hne].
        -- right. unfold batch_timers. apply elem_of_app. right. cbn. by left.
        -- left. apply H2. rewrite lookup_app_l in Hp; [exact Hp|].
           apply lookup_lt_Some in Hp. rewrite length_app in Hp. cbn in Hp. lia.
      * intros p err Hp.
        destruct (decide (p = length (promises w))) as [->|Hne].
        -- rewrite lookup_app_r, Nat.sub_diag in Hp by done. discriminate.
        -- rewrite lookup_app_l in Hp; [by eapply H3|].
           apply lookup_lt_Some in Hp. rewrite length_app in Hp. cbn in Hp. lia.
    + unfold addListener. destruct (storeReady w) eqn:Hr; exact IH.
    + unfold removeListener. destruct (storeReady w) eqn:Hr; exact IH.
    + unfold hasListener. destruct (storeReady w) eqn:Hr; exact IH.
    + exact IH.
    + destruct (forEach_listener_grows (listeners w) w) as [Hgr Hps].
      unfold fireListeners. rewrite (g_timers _ _ Hgr).
      eapply settling_weaken; [| |exact Hps|exact IH]; [done|apply Hgr].
    + exact IH.
  - rewrite Htm in IH.
    assert (Htimers : timers (run_task e t (set_timers ts w)) = ts).
    { destruct t as [p|p]; cbn [run_task].
      - destruct (commit (set_timers ts w)) as [[v|err] w1] eqn:Hc.
        + rewrite (g_timers _ _ (resolve_grows p v w1)).
          pose proof (commit_timers (set_timers ts w)) as Ht.
          by rewrite Hc in Ht.
        + pose proof (commit_timers (set_timers ts w)) as Ht.
          by rewrite Hc in Ht.
      - by rewrite (g_timers _ _ (resolve_grows p _ _)). }
    rewrite Htimers. apply settling_run_task.
    eapply settling_weaken; [| | |exact IH]; done.
Qed.

(** X3. No promise of [setState] is left behind or rejected: in every
    world the page can reach, once the queued timers have run every
    promise ever returned by [setState] is fulfilled. *)
Theorem every_promise_is_fulfilled (e : environment) (w : world) (p : nat) :
  reachable e w → p < length (promises w) →
  ∃ v, promises (run_timers e w) !! p = Some (Fulfilled v).
Proof.
  intros Hreach Hp. apply reachable_settling in Hreach.
  destruct (settling_run_tasks e (timers w) (set_timers [] w)) as [Hfin Hlen].
  { eapply settling_weaken; [| | |exact Hreach]; done. }
  unfold run_timers. destruct Hfin as (_ & Hpend & Hrej).
  destruct (lookup_lt_is_Some_2 (promises (run_tasks e (timers w) (set_timers [] w))) p)
    as [o Ho]; [by rewrite Hlen|].
  destruct o as [|v|err]; [|by exists v|by destruct (Hrej p err)].
  apply Hpend in Ho. by apply elem_of_nil in Ho.
Qed.

Lemma three_calls_reachable :
  reachable background_page
    (setStates [UpdFn add_apple; UpdFn add_apple] fruit_world_later).2.
Proof.
  change (reachable background_page
            (do_call background_page (CallSetState (UpdFn add_apple))
               (do_call background_page (CallSetState (UpdFn add_apple))
                  fruit_world_later))).
  do 2 apply reach_call. apply fruit_world_later_reachable.
Defined.

Lemma every_promise_is_fulfilled_witness :
  ∃ v, promises (run_timers background_page
                   (setStates [UpdFn add_apple; UpdFn add_apple]
                              fruit_world_later).2) !! 2
       = Some (Fulfilled v).
Proof.
  apply (every_promise_is_fulfilled background_page _ 2 three_calls_reachable).
  vm_compute. lia.
Defined.

(** ** A whole batch, from the calls to the last timer *)

Lemma settle_events_silent (evs : list event) :
  Forall (fun ev => ∃ q o, ev = EvSettle q o) evs →
  omap listener_of evs = [] ∧ omap commit_of evs = [].
Proof.
  induction 1 as [|ev evs (q & o & ->) _ [IH1 IH2]]; [done|].
  cbn. by rewrite IH1, IH2.
Qed.

Lemma listener_events_no_commit (ls : list fnid) (cs : list loc) :
  omap commit_of (zip_with listener_event ls cs) = [].
Proof.
  revert cs. induction ls as [|fn ls IH]; intros [|c cs]; try reflexivity.
  cbn. apply IH.
Qed.

Lemma update_allocated_extends (h h' : heap) (u : update) :
  h ⊆ h' → update_allocated h u → update_allocated h' u.
Proof.
  intros Hsub. destruct u as [[| | | | |l]|f|f]; try done.
  intros [o Ho]. exists o. by eapply lookup_weaken.
Qed.

(** After the timers of a batch have run the store is between windows
    again; the batch produced one commit and one round of listener calls. *)
Lemma batch_run (e : environment) (w0 : world) (u : update) (us : list update) :
  window_start w0 → Forall (old_timer w0) (timers w0) →
  Forall (update_allocated (jsheap w0)) (u :: us) →
  Forall update_returns (u :: us) →
  ∃ w2 evs,
    w2 = run_timers e (setStates (u :: us) w0).2 ∧
    window_start w2 ∧ timers w2 = [] ∧ jsheap w0 ⊆ jsheap w2 ∧
    state w2 = merge_updates (jsheap w0) (state w0) (u :: us) ∧
    listeners w2 = listeners w0 ∧
    trace w2 = (trace w0 ++ evs)%list ∧
    omap listener_of evs = listeners w0 ∧
    omap commit_of evs = [state w2].
Proof.
  intros Hws Hold Halloc Hret.
  destruct (batch_until_commit e w0 u us Hws Hold Halloc Hret)
    as (w1 & wc & before & lcs & Hrun & _ & _ & _ & _ & Hloop & Hstc & Hrc
        & Hshc & Hidc & Hlsc & Htmc & Hsubc & _ & Htrc & Hbefore & Hlen & _).
  set (p0 := length (promises w0)) in *.
  set (wr := resolve p0 VUndefined wc) in *.
  pose proof (resolve_grows p0 VUndefined wc) as Hgr. fold wr in Hgr.
  destruct (resolve_trace p0 VUndefined wc) as (evs1 & Htr1 & Hevs1). fold wr in Htr1.
  destruct (run_resolves e (seq p0 (S (length us))) wr) as (Hgr2 & _ & evs2 & Htr2 & Hevs2).
  rewrite <- Hloop in Hgr2, Htr2.
  pose proof (grows_trans _ _ _ Hgr Hgr2) as Hg.
  exists (run_timers e w1),
         (before ++ EvCommit (state wc)
            :: zip_with listener_event (listeners w0) lcs ++ evs1 ++ evs2)%list.
  rewrite Hrun. cbn [snd].
  split; [reflexivity|]. split.
  { split; [by rewrite (g_ready _ _ Hg)|]. split; [by rewrite (g_should _ _ Hg)|].
    by rewrite (g_compose _ _ Hg). }
  split; [by rewrite (g_timers _ _ Hg)|].
  split; [etrans; [exact Hsubc|apply Hg]|].
  split; [by rewrite (g_state _ _ Hg)|].
  split; [by rewrite (g_listeners _ _ Hg)|].
  split.
  { rewrite Htr2, Htr1, Htrc. rewrite <- !app_assoc. cbn.
    by rewrite <- ?app_assoc. }
  assert (Hb : omap listener_of before = [] ∧ omap commit_of before = []).
  { apply settle_events_silent. eapply Forall_impl; [exact Hbefore|].
    intros ev (q & _ & o & ->). by eexists _, _. }
  assert (H1 : omap listener_of evs1 = [] ∧ omap commit_of evs1 = []).
  { apply settle_events_silent. eapply Forall_impl; [exact Hevs1|].
    intros ev (o & ->). by eexists _, _. }
  assert (H2 : omap listener_of evs2 = [] ∧ omap commit_of evs2 = []).
  { apply settle_events_silent. eapply Forall_impl; [exact Hevs2|].
    intros ev (q & _ & o & ->). by eexists _, _. }
  destruct Hb as [Hb1 Hb2], H1 as [H11 H12], H2 as [H21 H22].
  rewrite !omap_app. cbn [omap list_omap listener_of commit_of].
  change (list_omap ?f ?l) with (omap f l).
  rewrite !omap_app, Hb1, Hb2, H11, H12, H21, H22.
  rewrite listener_events_calls by exact Hlen.
  rewrite listener_events_no_commit, (g_state _ _ Hg).
  by rewrite !app_nil_r.
Qed.

(** C3. One committed [setState] batch: running the timers of a batch
    that opens a window commits once, and the commit calls the listeners
    of the registry one after the other in registration order, once per
    entry, before any promise of the batch is settled; each call receives
    an object made for it, different from the others and from every object
    that existed before the batch, that holds the properties of the
    committed state. [fireListeners] does the same fan-out on its own. *)
Theorem batch_notifies_each_listener_once
    (e : environment) (w0 : world) (u : update) (us : list update) :
  window_start w0 → Forall (old_timer w0) (timers w0) →
  Forall (update_allocated (jsheap w0)) (u :: us) →
  Forall update_returns (u :: us) →
  (∃ before lcs after evs,
     evs = (before
              ++ EvCommit (state (run_timers e (setStates (u :: us) w0).2))
              :: zip_with listener_event (listeners w0) lcs ++ after)%list ∧
     trace (run_timers e (setStates (u :: us) w0).2) = (trace w0 ++ evs)%list ∧
     omap listener_of evs = listeners w0 ∧
     omap commit_of evs = [state (run_timers e (setStates (u :: us) w0).2)] ∧
     Forall (fun ev => ∃ q, q < length (promises w0) ∧ settles q ev) before ∧
     Forall (fun ev => ∃ q, settles q ev) after ∧
     length lcs = length (listeners w0) ∧ NoDup lcs ∧
     Forall (new_copy (state (run_timers e (setStates (u :: us) w0).2)) w0
                      (run_timers e (setStates (u :: us) w0).2)) lcs ∧
     state (run_timers e (setStates (u :: us) w0).2)
       = merge_updates (jsheap w0) (state w0) (u :: us)) ∧
  (∃ cs w',
     fireListeners w0 = (Ok VUndefined, w') ∧
     trace w' = (trace w0 ++ zip_with listener_event (listeners w0) cs)%list ∧
     omap listener_of (zip_with listener_event (listeners w0) cs) = listeners w0 ∧
     length cs = length (listeners w0) ∧ NoDup cs ∧
     Forall (new_copy (state w0) w0 w') cs ∧
     state w' = state w0).
Proof.
  intros Hws Hold Halloc Hret. split.
  - destruct (batch_until_commit e w0 u us Hws Hold Halloc Hret)
      as (w1 & wc & before & lcs & Hrun & _ & _ & Hhp & _ & Hloop & Hstc & _
          & _ & _ & _ & _ & _ & _ & Htrc & Hbefore & Hlen & Hnd & Hcs).
    set (p0 := length (promises w0)) in *.
    set (wr := resolve p0 VUndefined wc) in *.
    pose proof (resolve_grows p0 VUndefined wc) as Hgr. fold wr in Hgr.
    destruct (resolve_trace p0 VUndefined wc) as (evs1 & Htr1 & Hevs1).
    fold wr in Htr1.
    destruct (run_resolves e (seq p0 (S (length us))) wr)
      as (Hgr2 & _ & evs2 & Htr2 & Hevs2).
    rewrite <- Hloop in Hgr2, Htr2.
    pose proof (grows_trans _ _ _ Hgr Hgr2) as Hg.
    rewrite Hrun. cbn [snd].
    assert (Hst2 : state (run_timers e w1) = state wc) by apply Hg.
    assert (Hafter : Forall (fun ev => ∃ q, settles q ev) (evs1 ++ evs2)%list).
    { apply Forall_app. split.
      - eapply Forall_impl; [exact Hevs1|]. intros ev Hev. by exists p0.
      - eapply Forall_impl; [exact Hevs2|]. intros ev (q & _ & Hev). by exists q. }
    assert (Hb : omap listener_of before = [] ∧ omap commit_of before = []).
    { apply settle_events_silent. eapply Forall_impl; [exact Hbefore|].
      intros ev (q & _ & o & ->). by eexists _, _. }
    assert (Ha : omap listener_of (evs1 ++ evs2)%list = [] ∧
                 omap commit_of (evs1 ++ evs2)%list = []).
    { apply settle_events_silent. eapply Forall_impl; [exact Hafter|].
      intros ev (q & o & ->). by eexists _, _. }
    destruct Hb as [Hb1 Hb2], Ha as [Ha1 Ha2].
    exists before, lcs, (evs1 ++ evs2)%list. eexists.
    split; [reflexivity|]. split.
    { rewrite Htr2, Htr1, Htrc, Hst2. rewrite <- !app_assoc. cbn.
      by rewrite <- ?app_assoc. }
    split.
    { rewrite omap_app. cbn [omap list_omap listener_of].
      change (list_omap ?f ?l) with (omap f l).
      rewrite omap_app, Hb1, Ha1, listener_events_calls by exact Hlen.
      by rewrite app_nil_r. }
    split.
    { rewrite omap_app. cbn [omap list_omap commit_of].
      change (list_omap ?f ?l) with (omap f l).
      by rewrite omap_app, Hb2, Ha2, listener_events_no_commit. }
    split; [exact Hbefore|]. split; [exact Hafter|].
    split; [exact Hlen|]. split; [exact Hnd|]. split; [|by rewrite Hst2].
    rewrite Hst2. eapply Forall_impl; [exact Hcs|]. intros c [Hnone Hsome].
    split; [by rewrite <- Hhp|].
    eapply lookup_weaken; [exact Hsome|apply Hg].
  - destruct Hws as (Hr & _).
    destruct (forEach_listener_ready (listeners w0) w0 Hr)
      as (cs & w' & Hrun & Hlen & Hnd & Hcs & Htr & _ & Hgr).
    exists cs, w'. unfold fireListeners.
    split; [exact Hrun|]. split; [exact Htr|].
    split; [by apply listener_events_calls|].
    repeat split; try assumption. apply Hgr.
Qed.

Lemma batch_notifies_each_listener_once_witness :
  ∃ c1 c2 after,
    trace (run_timers background_page (setStates [UpdFn add_apple] fruit_world).2)
      = EvCommit (state (run_timers background_page
                           (setStates [UpdFn add_apple] fruit_world).2))
          :: EvListener 5 (VRef c1) :: EvListener 6 (VRef c2) :: after ∧
    c1 ≠ c2 ∧
    jsheap fruit_world !! c1 = None ∧
    jsheap (run_timers background_page (setStates [UpdFn add_apple] fruit_world).2)
      !! c1 = Some (HObject (<["apples" := VNum 3]> (state fruit_world))) ∧
    Forall (fun ev => ∃ q, settles q ev) after.
Proof.
  destruct (batch_notifies_each_listener_once background_page fruit_world
              (UpdFn add_apple) [] fruit_world_window)
    as [(before & lcs & after & evs & -> & Htr & _ & _ & Hbefore & Hafter
         & Hlen & Hnd & Hcs & Hst) _].
  - constructor.
  - repeat constructor.
  - repeat constructor.
  - destruct before as [|ev before].
    2: { apply Forall_cons in Hbefore as [(q & Hq & _) _].
         vm_compute in Hq. lia. }
    destruct lcs as [|c1 [|c2 [|c3 lcs]]]; try discriminate Hlen.
    exists c1, c2, after. split; [exact Htr|].
    apply NoDup_cons in Hnd as [Hne _].
    apply Forall_cons in Hcs as [[Hnone Hsome] _].
    split; [intros ->; apply Hne; by left|].
    split; [exact Hnone|]. split; [|exact Hafter].
    rewrite Hsome, Hst. vm_compute. reflexivity.
Defined.

Lemma apply_update_props (h : heap) (prev : props) (u : update) :
  apply_update h prev u = update_props h prev u ∪ prev.
Proof.
  destruct u as [v|f|f]; [done|done|]. cbn.
  destruct (f prev); [done|]. by rewrite (left_id_L ∅ (∪)).
Qed.

Lemma getState_scalar (key : string) (v : value) (w : world) :
  storeReady w = true → key ≠ "" → state w !! key = Some v → scalar v →
  getState (SelValue (VStr key)) w = (Ok v, w).
Proof.
  intros Hr Hkey Hs Hv. destruct key as [|c k]; [done|].
  unfold getState. rewrite Hr. cbn [negb string_key]. rewrite Hs.
  cbn [from_option id]. by destruct v.
Qed.

(** X4. Round trip: when the last call of a batch passes an object, then
    after the commit [getState(key)] returns, for every key of that object
    holding a scalar, the value the object holds, whatever the earlier
    calls of the batch wrote under that key. *)
Theorem setState_then_getState
    (e : environment) (w0 : world) (u : update) (us pre : list update)
    (l : loc) (m : props) (key : string) (v : value) :
  window_start w0 → Forall (old_timer w0) (timers w0) →
  Forall (update_allocated (jsheap w0)) (u :: us) →
  Forall update_returns (u :: us) →
  u :: us = (pre ++ [UpdValue (VRef l)])%list →
  jsheap w0 !! l = Some (HObject m) →
  key ≠ "" → m !! key = Some v → scalar v →
  getState (SelValue (VStr key)) (run_timers e (setStates (u :: us) w0).2) =
    (Ok v, run_timers e (setStates (u :: us) w0).2).
Proof.
  intros Hws Hold Halloc Hret Hlast Hl Hkey Hm Hv.
  destruct (batch_run e w0 u us Hws Hold Halloc Hret)
    as (w2 & evs & -> & (Hr & _) & _ & _ & Hst & _).
  apply getState_scalar; try assumption.
  rewrite Hst, Hlast, merge_updates_snoc. cbn. rewrite Hl.
  by apply lookup_union_Some_l.
Qed.

Lemma merge_updates_untouched (h : heap) (s : props) (us : list update)
    (k : string) :
  Forall (fun u => ∀ prev, update_props h prev u !! k = None) us →
  merge_updates h s us !! k = s !! k.
Proof.
  intros Hus. revert s. unfold merge_updates.
  induction Hus as [|u us Hu _ IH]; intros s; [reflexivity|].
  cbn [foldl]. rewrite IH, apply_update_props, lookup_union_r; [done|apply Hu].
Qed.

(** X5. A commit merges and does not replace: a key that no update of the
    batch writes has, after the commit, the value it had before. *)
Theorem commit_keeps_unwritten_keys
    (e : environment) (w0 : world) (u : update) (us : list update) (k : string) :
  window_start w0 → Forall (old_timer w0) (timers w0) →
  Forall (update_allocated (jsheap w0)) (u :: us) →
  Forall update_returns (u :: us) →
  Forall (fun x => ∀ prev, update_props (jsheap w0) prev x !! k = None) (u :: us) →
  state (run_timers e (setStates (u :: us) w0).2) !! k = state w0 !! k.
Proof.
  intros Hws Hold Halloc Hret Hk.
  destruct (batch_run e w0 u us Hws Hold Halloc Hret)
    as (w2 & evs & -> & _ & _ & _ & Hst & _).
  rewrite Hst. by apply merge_updates_untouched.
Qed.

Lemma merge_updates_nothing (h : heap) (s : props) (us : list update) :
  Forall (fun u => ∀ prev, update_props h prev u = ∅) us →
  merge_updates h s us = s.
Proof.
  intros Hus. apply map_eq. intros k. apply merge_updates_untouched.
  eapply Forall_impl; [exact Hus|]. intros u Hu prev. by rewrite Hu.
Qed.

(** X6. One window, one notification: however many [setState] calls a
    batch has, running its timers commits once and calls every registered
    listener once, in registration order; this also happens when the
    updates write nothing ([setState(undefined)], [setState(42)], a
    function returning nothing), in which case the state is unchanged. *)
Theorem batch_notifies_once
    (e : environment) (w0 : world) (u : update) (us : list update) :
  window_start w0 → Forall (old_timer w0) (timers w0) →
  Forall (update_allocated (jsheap w0)) (u :: us) →
  Forall update_returns (u :: us) →
  ∃ evs,
    trace (run_timers e (setStates (u :: us) w0).2) = (trace w0 ++ evs)%list ∧
    omap listener_of evs = listeners w0 ∧
    omap commit_of evs = [state (run_timers e (setStates (u :: us) w0).2)] ∧
    (Forall (fun x => ∀ prev, update_props (jsheap w0) prev x = ∅) (u :: us) →
     state (run_timers e (setStates (u :: us) w0).2) = state w0).
Proof.
  intros Hws Hold Halloc Hret.
  destruct (batch_run e w0 u us Hws Hold Halloc Hret)
    as (w2 & evs & -> & _ & _ & _ & Hst & _ & Htr & Hls & Hcm).
  exists evs. split; [exact Htr|]. split; [exact Hls|]. split; [exact Hcm|].
  intros Hnothing. rewrite Hst. by apply merge_updates_nothing.
Qed.

(** X7. Window boundaries do not change the result: committing a batch
    and then a second one leaves the state that a single batch of all the
    calls leaves, the left-to-right merge of all updates (the listeners
    are notified twice instead of once). *)
Theorem two_windows_commit_like_one
    (e : environment) (w0 : world) (a b : update) (us1 us2 : list update) :
  window_start w0 → Forall (old_timer w0) (timers w0) →
  Forall (update_allocated (jsheap w0)) ((a :: us1) ++ b :: us2) →
  Forall update_returns ((a :: us1) ++ b :: us2) →
  state (run_timers e
           (setStates (b :: us2)
              (run_timers e (setStates (a :: us1) w0).2)).2)
  = state (run_timers e (setStates ((a :: us1) ++ b :: us2) w0).2).
Proof.
  intros Hws Hold Halloc Hret.
  pose proof Halloc as Halloc'. apply Forall_app in Halloc' as [Ha1 Ha2].
  pose proof Hret as Hret'. apply Forall_app in Hret' as [Hr1 Hr2].
  destruct (batch_run e w0 a us1 Hws Hold Ha1 Hr1)
    as (w2 & evs & -> & Hws2 & Htm2 & Hsub2 & Hst2 & _).
  set (w2 := run_timers e (setStates (a :: us1) w0).2) in *.
  assert (Ha2' : Forall (update_allocated (jsheap w2)) (b :: us2)).
  { eapply Forall_impl; [exact Ha2|]. intros x. by apply update_allocated_extends. }
  destruct (batch_run e w2 b us2 Hws2) as (w3 & evs3 & -> & _ & _ & _ & Hst3 & _);
    [by rewrite Htm2|exact Ha2'|exact Hr2|].
  destruct (batch_run e w0 a (us1 ++ b :: us2) Hws Hold Halloc Hret)
    as (w4 & evs4 & Hw4 & _ & _ & _ & Hst4 & _).
  cbn [app]. rewrite <- Hw4, Hst4, Hst3, Hst2.
  rewrite (merge_updates_extends (jsheap w0) (jsheap w2)) by done.
  unfold merge_updates. symmetry. apply (foldl_app _ (a :: us1)).
Qed.

(** X8. [removeListener] after [addListener] restores the registry exactly
    when the listener was not registered before; in general it leaves the
    earlier registry without any occurrence of the listener, the others in
    their order. Removing twice is removing once, and removing a listener
    that is not registered changes nothing. *)
Theorem removeListener_undoes_addListener (f : fnid) (w : world) :
  storeReady w = true →
  listeners (removeListener f (addListener f w).2).2
    = filter (fun l => l <> f) (listeners w) ∧
  (f ∉ listeners w →
   listeners (removeListener f (addListener f w).2).2 = listeners w ∧
   listeners (removeListener f w).2 = listeners w) ∧
  listeners (removeListener f (removeListener f w).2).2
    = listeners (removeListener f w).2.
Proof.
  intros Hr.
  assert (Hnotin : ∀ ls : list fnid, f ∉ ls → filter (fun l => l <> f) ls = ls).
  { intros ls Hls. induction ls as [|x ls IH]; [reflexivity|].
    apply not_elem_of_cons in Hls as [Hx Hls].
    rewrite filter_cons_True by congruence. by rewrite IH. }
  assert (Hadd : filter (fun l => l <> f) (listeners w ++ [f])%list
                 = filter (fun l => l <> f) (listeners w)).
  { rewrite filter_app, filter_cons_False, filter_nil, app_nil_r; [done|].
    intros H. by apply H. }
  unfold removeListener, addListener. rewrite Hr. cbn. rewrite Hr. cbn.
  split; [exact Hadd|]. split.
  - intros Hf. rewrite Hadd. split; by apply Hnotin.
  - apply Hnotin. intros Hin. apply list_elem_of_filter in Hin as [Hne _].
    by apply Hne.
Qed.

Lemma setState_then_getState_witness :
  getState (SelValue (VStr "pears"))
    (run_timers background_page
       (setStates [UpdFn add_apple; UpdValue (VRef 2%positive)] fruit_world).2)
  = (Ok (VNum 1),
     run_timers background_page
       (setStates [UpdFn add_apple; UpdValue (VRef 2%positive)] fruit_world).2).
Proof.
  apply (setState_then_getState background_page fruit_world (UpdFn add_apple)
           [UpdValue (VRef 2%positive)] [UpdFn add_apple] 2%positive
           {["pears" := VNum 1]} "pears" (VNum 1) fruit_world_window).
  - constructor.
  - repeat constructor. eexists. vm_compute. reflexivity.
  - repeat constructor.
  - reflexivity.
  - vm_compute. reflexivity.
  - discriminate.
  - reflexivity.
  - exact I.
Defined.

Lemma add_apple_spares_basket (prev : props) : add_apple prev !! "basket" = None.
Proof.
  unfold add_apple. destruct (prev !! "apples") as [[]|]; try reflexivity.
Defined.

Lemma commit_keeps_unwritten_keys_witness :
  state (run_timers background_page
           (setStates [UpdValue (VRef 2%positive); UpdFn add_apple] fruit_world).2)
    !! "basket" = Some (VRef 3%positive).
Proof.
  rewrite (commit_keeps_unwritten_keys background_page fruit_world
             (UpdValue (VRef 2%positive)) [UpdFn add_apple] "basket"
             fruit_world_window).
  - reflexivity.
  - constructor.
  - repeat constructor. eexists. vm_compute. reflexivity.
  - repeat constructor.
  - constructor; [intros prev; vm_compute; reflexivity|].
    constructor; [|constructor]. intros prev. apply add_apple_spares_basket.
Defined.

Lemma batch_notifies_once_witness :
  ∃ evs,
    trace (run_timers background_page
             (setStates [UpdValue VUndefined; UpdValue (VNum 42)] fruit_world).2)
      = evs ∧
    omap listener_of evs = [5; 6] ∧
    state (run_timers background_page
             (setStates [UpdValue VUndefined; UpdValue (VNum 42)] fruit_world).2)
      = state fruit_world.
Proof.
  destruct (batch_notifies_once background_page fruit_world
              (UpdValue VUndefined) [UpdValue (VNum 42)] fruit_world_window)
    as (evs & Htr & Hls & _ & Hst).
  - constructor.
  - repeat constructor.
  - repeat constructor.
  - exists evs. split; [exact Htr|]. split; [exact Hls|].
    apply Hst. repeat constructor.
Defined.

Lemma two_windows_commit_like_one_witness :
  state (run_timers background_page
           (setStates [UpdFn add_apple]
              (run_timers background_page
                 (setStates [UpdFn add_apple] fruit_world).2)).2)
  = state (run_timers background_page
             (setStates [UpdFn add_apple; UpdFn add_apple] fruit_world).2).
Proof.
  apply (two_windows_commit_like_one background_page fruit_world
           (UpdFn add_apple) (UpdFn add_apple) [] [] fruit_world_window).
  - constructor.
  - repeat constructor.
  - repeat constructor.
Defined.

Lemma removeListener_undoes_addListener_witness :
  listeners (removeListener 7 (addListener 7 fruit_world).2).2 = [5; 6] ∧
  listeners (removeListener 5 (addListener 5 fruit_world).2).2 = [6].
Proof.
  destruct (removeListener_undoes_addListener 7 fruit_world eq_refl)
    as (_ & H7 & _).
  destruct (removeListener_undoes_addListener 5 fruit_world eq_refl)
    as (H5 & _).
  split; [|exact H5]. apply H7. vm_compute.
  intros H. repeat (apply elem_of_cons in H as [H|H]; [discriminate|]).
  by apply elem_of_nil in H.
Defined.

(** ** The first [initStore] *)

Lemma do_call_storePromise (e : environment) (c : call) (w : world) :
  storePromise w = storeReady w →
  storePromise (do_call e c w) = storeReady (do_call e c w).
Proof.
  intros Heq. destruct c as [i|sel|u|f|f|f| | |h]; cbn [do_call].
  - unfold initStore. destruct (storeReady w) eqn:Hr; cbn [snd]; [by rewrite Hr|].
    destruct (isBackgroundPage e) as [[|]|]; cbn [snd]; by rewrite ?Hr.
  - pose proof (getState_grows sel w) as Hgr.
    by rewrite (g_ready _ _ Hgr), (g_storePromise _ _ Hgr).
  - unfold setState. destruct (storeReady w) eqn:Hr; cbn [negb snd];
      [|by rewrite Hr].
    destruct (shouldUpdateState w) eqn:Hs; unfold_setters; cbn;
      by rewrite ?Hs, ?Heq.
  - unfold addListener. destruct (storeReady w) eqn:Hr; cbn; by rewrite ?Hr.
  - unfold removeListener. destruct (storeReady w) eqn:Hr; cbn; by rewrite ?Hr.
  - unfold hasListener. destruct (storeReady w) eqn:Hr; cbn; by rewrite ?Hr.
  - done.
  - destruct (forEach_listener_grows (listeners w) w) as [Hgr _].
    unfold fireListeners. by rewrite (g_ready _ _ Hgr), (g_storePromise _ _ Hgr).
  - done.
Qed.

Lemma reachable_storePromise (e : environment) (w : world) :
  reachable e w → storePromise w = storeReady w.
Proof.
  induction 1 as [|c w _ IH|t ts w _ IH Htm]; [reflexivity|..].
  - by apply do_call_storePromise.
  - destruct (run_task_keeps e t (set_timers ts w)) as (Hr & Hsp & _).
    by rewrite Hr, Hsp.
Qed.

(** X9. The first successful [initStore] starts the store from its
    argument: in every world the page can reach, when [initStore(obj)]
    succeeds the state holds exactly the properties of [obj], the store
    promise is resolved, no listener, timer or promise exists, the store is
    ready for a first batch, and [getState(key)] returns each scalar
    initial value. *)
Theorem first_initStore_sets_state
    (e : environment) (w w1 : world) (l : loc) (m : props) :
  reachable e w → initStore e (VRef l) w = (Ok store, w1) →
  jsheap w !! l = Some (HObject m) →
  state w1 = m ∧ storeReady w1 = true ∧ storePromise w1 = true ∧
  listeners w1 = [] ∧ timers w1 = [] ∧ promises w1 = [] ∧
  window_start w1 ∧
  (∀ key v, key ≠ "" → m !! key = Some v → scalar v →
     getState (SelValue (VStr key)) w1 = (Ok v, w1)).
Proof.
  intros Hreach Hinit Hl.
  apply initStore_ok_ready in Hinit as (Hr & _ & ->).
  pose proof (reachable_not_ready_pristine e w Hreach Hr) as Hw.
  assert (Hst : state (set_storeReady true (set_storePromise true
                  (set_state (own_props (jsheap w) (VRef l) ∪ state w) w))) = m).
  { cbn. rewrite Hl. rewrite Hw. cbn. apply (right_id_L ∅ (∪)). }
  split; [exact Hst|]. rewrite Hw in Hst |- *.
  repeat (split; [reflexivity|]). split; [by repeat split|].
  intros key v Hkey Hm Hv. apply getState_scalar; try done.
  change (state (set_storeReady true (set_storePromise true
            (set_state (own_props (jsheap (set_jsheap (jsheap w) module_init))
                          (VRef l)
                        ∪ state (set_jsheap (jsheap w) module_init))
               (set_jsheap (jsheap w) module_init)))) !! key = Some v).
  by rewrite Hst.
Qed.

Lemma first_initStore_sets_state_witness :
  state (initStore background_page (VRef 1%positive)
           (set_jsheap fruit_heap module_init)).2 !! "apples" = Some (VNum 2) ∧
  getState (SelValue (VStr "apples"))
    (initStore background_page (VRef 1%positive)
       (set_jsheap fruit_heap module_init)).2
  = (Ok (VNum 2),
     (initStore background_page (VRef 1%positive)
        (set_jsheap fruit_heap module_init)).2).
Proof.
  destruct (first_initStore_sets_state background_page
              (set_jsheap fruit_heap module_init)
              (initStore background_page (VRef 1%positive)
                 (set_jsheap fruit_heap module_init)).2
              1%positive
              (<["apples" := VNum 2]> {["basket" := VRef 3%positive]}))
    as (Hst & _ & _ & _ & _ & _ & _ & Hget).
  - apply (reach_call _ (CallerHeap fruit_heap)). apply reach_load.
  - reflexivity.
  - reflexivity.
  - split; [by rewrite Hst|]. apply Hget; [discriminate|reflexivity|exact I].
Defined.

(** ** The connector *)

Lemma isContentScript_not_background (e : environment) :
  isContentScript e = true → isBackgroundPage e = Ok false.
Proof.
  unfold isContentScript, isBackgroundPage. intros Hcs.
  destruct (decide (protocol e = "chrome-extension:")) as [Hp|Hp]; [|done].
  by rewrite bool_decide_eq_true_2 in Hcs.
Qed.

(** X10. [connectToStore] returns [undefined], whatever the bridge would
    do, exactly in the background page and in content scripts; it throws
    exactly when [isBackgroundPage] throws, which is in a privileged page
    other than the generated background page when the manifest has no
    background entry; everywhere else it returns a promise, which a bridge
    failure rejects (with the message string of [lastError], or with the
    thrown error) leaving [backgroundStore] as it was. *)
Theorem connectToStore_by_context :
  (∀ e b, connectToStore e b = Ok None ↔
          isBackgroundPage e = Ok true ∨ isContentScript e = true) ∧
  (∀ e b err, connectToStore e b = Throw err ↔
     protocol e = "chrome-extension:" ∧
     pathname e ≠ "/_generated_background_page.html" ∧
     manifest_background e = None ∧
     err = TypeError "Cannot read property 'page' of undefined") ∧
  (∀ e b, isBackgroundPage e = Ok false → isContentScript e = false →
     ∃ c, connectToStore e b = Ok (Some c) ∧
          ∀ owner bs,
            match b with
            | BridgeThrows err =>
                connection_state c owner bs = (RejectedWith (ReasonError err), bs)
            | BridgeLastError message =>
                connection_state c owner bs
                  = (RejectedWith (ReasonMessage message), bs)
            | BridgeWindow false =>
                connection_state c owner bs = (FulfilledWith None, bs)
            | BridgeWindow true => c = ConnAwaitsOwner
            end).
Proof.
  split; [|split].
  - intros e b. unfold connectToStore. split.
    + destruct (isBackgroundPage e) as [[|]|]; [by left| |discriminate].
      destruct (isContentScript e); [by right|discriminate].
    + intros [Hbg|Hcs]; [by rewrite Hbg|].
      by rewrite (isContentScript_not_background e Hcs), Hcs.
  - intros e b err. unfold connectToStore, isBackgroundPage, isContentScript.
    destruct (decide (protocol e = "chrome-extension:")) as [Hp|Hp].
    + rewrite bool_decide_eq_true_2 by exact Hp. cbn [negb].
      destruct (decide (pathname e = "/_generated_background_page.html"))
        as [Hpath|Hpath].
      * split; [discriminate|]. by intros (_ & Hne & _).
      * destruct (manifest_background e) as [[page|]|].
        -- destruct (bool_decide (pathname e = page));
             (split; [discriminate|by intros (_ & _ & ? & _)]).
        -- split; [discriminate|by intros (_ & _ & ? & _)].
        -- split; [by intros [= <-]|by intros (_ & _ & _ & ->)].
    + rewrite bool_decide_eq_false_2 by exact Hp. cbn [negb].
      split; [discriminate|by intros (? & _)].
  - intros e b Hbg Hcs. unfold connectToStore. rewrite Hbg, Hcs.
    eexists. split; [reflexivity|]. intros owner bs.
    by destruct b as [err|message|[|]].
Qed.

(** X11. The handshake waits for the owner: a connection made from a
    privileged page to a background page that loaded the module stays
    pending, and [backgroundStore] keeps throwing its not-connected error,
    as long as the owner has not initialised its store; once the owner's
    [initStore] has succeeded, at any later time, the connection is
    fulfilled with the store and the members of [backgroundStore] are the
    owner's operations on the owner's state. *)
Theorem connection_waits_for_initStore
    (e eo : environment) (owner : world) :
  isBackgroundPage e = Ok false → isContentScript e = false →
  reachable eo owner →
  connectToStore e (BridgeWindow true) = Ok (Some ConnAwaitsOwner) ∧
  (storeReady owner = false →
     connection_state ConnAwaitsOwner owner Placeholder
       = (StillPending, Placeholder) ∧
     (∀ sel, backgroundStore_getState Placeholder sel owner
             = (Throw (Error "backgroundStore.getState is not initialized. Call this function inside connectToStore().then()"), owner)) ∧
     (∀ u, backgroundStore_setState Placeholder u owner
           = (Throw (Error "backgroundStore.setState is not initialized. Call this function inside connectToStore().then()"), owner))) ∧
  (∀ owner', steps eo owner owner' → storeReady owner' = true →
     connection_state ConnAwaitsOwner owner' Placeholder
       = (FulfilledWith (Some store), Assigned) ∧
     (∀ sel, backgroundStore_getState Assigned sel owner' = getState sel owner') ∧
     (∀ u, backgroundStore_setState Assigned u owner' = setState u owner') ∧
     (∀ f, backgroundStore_addListener Assigned f owner' = addListener f owner') ∧
     (∀ f, backgroundStore_removeListener Assigned f owner'
           = removeListener f owner')).
Proof.
  intros Hbg Hcs Hreach. split; [|split].
  - unfold connectToStore. by rewrite Hbg, Hcs.
  - intros Hr. unfold connection_state.
    rewrite (reachable_storePromise eo owner Hreach), Hr. by repeat split.
  - intros owner' Hsteps Hr'.
    assert (Hreach' : reachable eo owner').
    { apply reachable_steps. apply reachable_steps in Hreach.
      clear -Hreach Hsteps. induction Hsteps as [|w1 w2 w3 _ IH Hstep]; [done|].
      eapply steps_more; [by apply IH|exact Hstep]. }
    unfold connection_state.
    rewrite (reachable_storePromise eo owner' Hreach'), Hr'. by repeat split.
Qed.

Lemma connection_waits_for_initStore_witness :
  connection_state ConnAwaitsOwner (set_jsheap fruit_heap module_init) Placeholder
    = (StillPending, Placeholder) ∧
  connection_state ConnAwaitsOwner fruit_world Placeholder
    = (FulfilledWith (Some store), Assigned).
Proof.
  destruct (connection_waits_for_initStore options_page background_page
              (set_jsheap fruit_heap module_init) eq_refl eq_refl)
    as (_ & Hpending & Hlater).
  - apply (reach_call _ (CallerHeap fruit_heap)). apply reach_load.
  - split; [by apply Hpending|].
    destruct (Hlater fruit_world) as (Hbs & _); [|reflexivity|].
    + eapply steps_more; [eapply steps_more; [eapply steps_more|]|].
      * apply steps_refl.
      * apply (step_call _ (CallInitStore (VRef 1%positive))).
      * apply (step_call _ (CallAddListener 5)).
      * apply (step_call _ (CallAddListener 6)).
    + exact Hbs.
Defined.

(** ** Updates that are not plain objects *)

Lemma indexed_lookup (vs : list value) (i : nat) :
  indexed vs !! pretty i = vs !! i.
Proof.
  unfold indexed.
  assert (Hnd : NoDup (imap (fun i v => (pretty i, v)) vs).*1).
  { rewrite fmap_imap.
    apply NoDup_alt. intros a b s Ha Hb.
    rewrite list_lookup_imap in Ha, Hb.
    destruct (vs !! a) eqn:Ea; [|discriminate].
    destruct (vs !! b) eqn:Eb; [|discriminate].
    cbn in Ha, Hb. simplify_eq. by apply (inj pretty). }
  destruct (vs !! i) as [v|] eqn:Hi.
  - apply elem_of_list_to_map; [exact Hnd|].
    apply list_elem_of_lookup. exists i. by rewrite list_lookup_imap, Hi.
  - apply not_elem_of_list_to_map. intros Hin.
    apply list_elem_of_fmap in Hin as ([k v] & Hk & Hin). cbn in Hk.
    apply list_elem_of_lookup in Hin as [j Hj].
    rewrite list_lookup_imap in Hj.
    destruct (vs !! j) eqn:Ej; [|discriminate]. cbn in Hj.
    injection Hj as Hkj _.
    assert (i = j) by (apply (inj pretty); congruence). congruence.
Qed.

(** X12. An array passed to [setState] is not rejected: it is spread like
    any object, so after the commit element [i] is in the state under the
    key that is the decimal numeral of [i]. *)
Theorem setState_array_writes_index_keys
    (e : environment) (w0 : world) (l : loc) (vs : list value) (i : nat)
    (v : value) :
  window_start w0 → Forall (old_timer w0) (timers w0) →
  jsheap w0 !! l = Some (HArray vs) → vs !! i = Some v →
  state (run_timers e (setStates [UpdValue (VRef l)] w0).2) !! pretty i = Some v.
Proof.
  intros Hws Hold Hl Hi.
  assert (Halloc : Forall (update_allocated (jsheap w0)) [UpdValue (VRef l)]).
  { repeat constructor. by eexists. }
  assert (Hret : Forall update_returns [UpdValue (VRef l)]).
  { by repeat constructor. }
  destruct (batch_run e w0 (UpdValue (VRef l)) [] Hws Hold Halloc Hret)
    as (w2 & evs & -> & _ & _ & _ & Hst & _).
  rewrite Hst. cbn. rewrite Hl.
  apply lookup_union_Some_l. by rewrite indexed_lookup.
Qed.

Lemma setState_array_writes_index_keys_witness :
  state (run_timers background_page
           (setStates [UpdValue (VRef 3%positive)] fruit_world).2) !! "1"
  = Some (VNum 2).
Proof.
  apply (setState_array_writes_index_keys background_page fruit_world
           3%positive [VNum 1; VNum 2] 1 (VNum 2) fruit_world_window).
  - constructor.
  - reflexivity.
  - reflexivity.
Defined.

(** ** One commit per window *)

Lemma returning_invariant (e : environment) (w : world) :
  reachable_returning e w →
  reachable e w ∧
  (∀ h s, ∃ s', composeNextState w h s = Ok s') ∧
  (shouldUpdateState w = false → ∃ p, TCommit p ∈ timers w).
Proof.
  induction 1 as [|c w Hc _ (Hreach & Hret & Hcm)|t ts w _ (Hreach & Hret & Hcm) Htm].
  - split; [apply reach_load|]. split; [by eexists|discriminate].
  - split; [by apply reach_call|].
    destruct c as [i|sel|u|f|f|f| | |h]; cbn [do_call].
    + unfold initStore. destruct (storeReady w); [by split|].
      destruct (isBackgroundPage e) as [[|]|]; by split.
    + pose proof (getState_grows sel w) as Hgr.
      by rewrite (g_compose _ _ Hgr), (g_should _ _ Hgr), (g_timers _ _ Hgr).
    + destruct (storeReady w) eqn:Hr; [|unfold setState; rewrite Hr; by split].
      rewrite (setState_ready u w Hr). cbn. split.
      * intros h s. destruct (Hret h s) as [s' ->].
        rewrite (setter_step_apply u h s' Hc). by eexists.
      * intros _. unfold batch_timers. destruct (shouldUpdateState w).
        -- exists (length (promises w)). set_solver.
        -- destruct (Hcm eq_refl) as [p Hp]. exists p. set_solver.
    + unfold addListener. destruct (storeReady w); by split.
    + unfold removeListener. destruct (storeReady w); by split.
    + unfold hasListener. destruct (storeReady w); by split.
    + by split.
    + destruct (forEach_listener_grows (listeners w) w) as [Hgr _].
      unfold fireListeners.
      by rewrite (g_compose _ _ Hgr), (g_should _ _ Hgr), (g_timers _ _ Hgr).
    + by split.
  - split; [by apply reach_timer|].
    pose proof (reachable_window_invariant e w Hreach) as Hinv.
    unfold window_invariant in Hinv.
    destruct t as [p|q]; cbn [run_task].
    + destruct (shouldUpdateState w) eqn:Hsh.
      { destruct Hinv as [_ Hts]. rewrite Htm in Hts.
        apply Forall_cons in Hts as [(q & Hq & _) _]. discriminate. }
      destruct Hinv as [Hr _].
      destruct (commit_ready (set_timers ts w) Hr) as (c0 & _ & Hok & _).
      destruct (Hret (<[c0 := HObject (state w)]> (jsheap w)) (state w))
        as [next Hnext].
      destruct (Hok next Hnext)
        as (cs & wc & Hcommit & _ & _ & Hshc & Hidc & _).
      rewrite Hcommit.
      pose proof (resolve_grows p VUndefined wc) as Hgr.
      rewrite (g_compose _ _ Hgr), (g_should _ _ Hgr), Hshc.
      split; [|discriminate]. intros h s. rewrite Hidc. by eexists.
    + pose proof (resolve_grows q (timeout_value e) (set_timers ts w)) as Hgr.
      rewrite (g_compose _ _ Hgr), (g_should _ _ Hgr), (g_timers _ _ Hgr).
      cbn. split; [exact Hret|]. intros Hsh.
      destruct (Hcm Hsh) as [p Hp]. exists p. rewrite Htm in Hp.
      apply elem_of_cons in Hp as [Hp|Hp]; [discriminate|exact Hp].
Qed.

(** X13. At most one commit is queued: in every world the page can reach,
    while [shouldUpdateState] is true the timer queue holds resolves only
    and the pending setter is the identity; while it is false the store is
    initialised and the queue holds one commit among resolves, or resolves
    only (the commit fired and an update callback threw in it, so nothing
    was reset). When no update callback throws, exactly one commit is
    queued as long as [shouldUpdateState] is false, however many calls
    were made. *)
Theorem at_most_one_commit_queued (e : environment) (w : world) :
  reachable e w →
  (shouldUpdateState w = true →
     Forall (fun t => ∃ q, t = TResolve q) (timers w) ∧
     ∀ h s, composeNextState w h s = Ok s) ∧
  (shouldUpdateState w = false →
     storeReady w = true ∧
     (Forall (fun t => ∃ q, t = TResolve q) (timers w) ∨
      ∃ ts1 p ts2,
        timers w = (ts1 ++ TCommit p :: ts2)%list ∧
        Forall (fun t => ∃ q, t = TResolve q) (ts1 ++ ts2))) ∧
  (reachable_returning e w → shouldUpdateState w = false →
     ∃ ts1 p ts2,
       timers w = (ts1 ++ TCommit p :: ts2)%list ∧
       Forall (fun t => ∃ q, t = TResolve q) (ts1 ++ ts2)).
Proof.
  intros Hreach. apply reachable_window_invariant in Hreach.
  unfold window_invariant in Hreach.
  assert (Hweak : ∀ n ts, resolves_below n ts →
                          Forall (fun t => ∃ q, t = TResolve q) ts).
  { intros n ts Hts. eapply Forall_impl; [exact Hts|].
    intros t (q & -> & _). by exists q. }
  assert (Hone : ∀ ts1 p ts2,
            timers w = (ts1 ++ TCommit p :: ts2)%list →
            resolves_below (length (promises w)) ts1 →
            resolves_below (length (promises w)) ts2 →
            ∃ ts1 p ts2,
              timers w = (ts1 ++ TCommit p :: ts2)%list ∧
              Forall (fun t => ∃ q, t = TResolve q) (ts1 ++ ts2)).
  { intros ts1 p ts2 Htm H1 H2. exists ts1, p, ts2. split; [exact Htm|].
    apply Forall_app. split; eapply Hweak; eassumption. }
  split; [|split].
  - intros Hsh. rewrite Hsh in Hreach.
    destruct Hreach as [Hid Hts]. split; [|exact Hid]. eapply Hweak, Hts.
  - intros Hsh. rewrite Hsh in Hreach.
    destruct Hreach as (Hr & [Hts|(ts1 & p & ts2 & Htm & H1 & H2)]).
    + split; [exact Hr|]. left. eapply Hweak, Hts.
    + split; [exact Hr|]. right. by apply (Hone ts1 p ts2).
  - intros Hret Hsh. rewrite Hsh in Hreach.
    destruct (returning_invariant e w Hret) as (_ & _ & Hcm).
    destruct (Hcm Hsh) as [p0 Hp0].
    destruct Hreach as (Hr & [Hts|(ts1 & p & ts2 & Htm & H1 & H2)]).
    + unfold resolves_below in Hts. rewrite Forall_forall in Hts.
      destruct (Hts _ Hp0) as (q & Hq & _). discriminate.
    + by apply (Hone ts1 p ts2).
Qed.

Lemma three_calls_reachable_returning :
  reachable_returning background_page
    (setStates [UpdFn add_apple; UpdFn add_apple] fruit_world_later).2.
Proof.
  change (reachable_returning background_page
            (do_call background_page (CallSetState (UpdFn add_apple))
               (do_call background_page (CallSetState (UpdFn add_apple))
                  fruit_world_later))).
  do 2 (apply returning_call_step; [exact I|]).
  apply (returning_timer background_page (TCommit 0) [TResolve 0]
           (do_call background_page (CallSetState (UpdValue (VRef 2%positive)))
                    fruit_world)); [|reflexivity].
  apply returning_call_step; [exact I|].
  apply (returning_call_step _ (CallAddListener 6)); [exact I|].
  apply (returning_call_step _ (CallAddListener 5)); [exact I|].
  apply (returning_call_step _ (CallInitStore (VRef 1%positive))); [exact I|].
  apply (returning_call_step _ (CallerHeap fruit_heap)); [exact I|].
  apply returning_load.
Defined.

Lemma at_most_one_commit_queued_witness :
  ∃ ts1 p ts2,
    timers (setStates [UpdFn add_apple; UpdFn add_apple] fruit_world_later).2
      = (ts1 ++ TCommit p :: ts2)%list ∧
    Forall (fun t => ∃ q, t = TResolve q) (ts1 ++ ts2).
Proof.
  destruct (at_most_one_commit_queued background_page _
              three_calls_reachable) as (_ & _ & Hone).
  apply Hone; [apply three_calls_reachable_returning|reflexivity].
Defined.

(** ** A batch with an update callback that throws *)

Lemma setter_step_extends (h h' : heap) (s : props) (u : update) :
  h ⊆ h' → update_allocated h u → setter_step u h' s = setter_step u h s.
Proof.
  intros Hsub Hu. destruct u as [v|f|f]; [|reflexivity|reflexivity]. cbn.
  rewrite (own_props_extends h h'); [reflexivity|exact Hsub|]. by intros l ->.
Qed.

Lemma try_updates_extends (h h' : heap) (s : props) (us : list update) :
  h ⊆ h' → Forall (update_allocated h) us →
  try_updates h' s us = try_updates h s us.
Proof.
  intros Hsub Hus. revert s. induction Hus as [|u us Hu _ IH]; intros s; [done|].
  cbn [try_updates]. rewrite (setter_step_extends h h' s u Hsub Hu).
  destruct (setter_step u h s); [apply IH|reflexivity].
Qed.

Lemma wedged_step (e : environment) (w w' : world) :
  wedged w → step e w w' → wedged w' ∧ state w' = state w.
Proof.
  intros Hw Hstep. destruct Hstep as [c w0|t ts w0 Htm];
    destruct Hw as (Hr & Hsh & Hts); unfold wedged.
  - destruct c as [i|sel|u|f|f|f| | |h]; cbn [do_call].
    + unfold initStore. by rewrite Hr.
    + pose proof (getState_grows sel w0) as Hgr.
      by rewrite (g_ready _ _ Hgr), (g_should _ _ Hgr), (g_timers _ _ Hgr),
        (g_state _ _ Hgr).
    + rewrite (setState_ready u w0 Hr). cbn. rewrite Hsh.
      repeat split. unfold batch_timers. cbn.
      apply Forall_app. split; [exact Hts|]. repeat constructor. by eexists.
    + unfold addListener. by rewrite Hr.
    + unfold removeListener. by rewrite Hr.
    + unfold hasListener. by rewrite Hr.
    + done.
    + destruct (forEach_listener_grows (listeners w0) w0) as [Hgr _].
      unfold fireListeners.
      by rewrite (g_ready _ _ Hgr), (g_should _ _ Hgr), (g_timers _ _ Hgr),
        (g_state _ _ Hgr).
    + done.
  - rewrite Htm in Hts. apply Forall_cons in Hts as [[q ->] Hts].
    cbn [run_task].
    pose proof (resolve_grows q (timeout_value e) (set_timers ts w0)) as Hgr.
    by rewrite (g_ready _ _ Hgr), (g_should _ _ Hgr), (g_timers _ _ Hgr),
      (g_state _ _ Hgr).
Qed.

Lemma wedged_steps (e : environment) (w w' : world) :
  wedged w → steps e w w' → wedged w' ∧ state w' = state w.
Proof.
  intros Hw. induction 1 as [w|w1 w2 w3 _ IH Hstep]; [done|].
  destruct (IH Hw) as [Hw2 Hst2].
  destruct (wedged_step e w2 w3 Hw2 Hstep) as [Hw3 Hst3].
  split; [exact Hw3|]. by rewrite Hst3.
Qed.

(** X14. An update callback that throws costs the page its store: when
    the setter chain of a batch throws, running the timers commits
    nothing and calls no listener, the state is the one before the batch,
    and the commit callback is left before its clean-up, so that
    [shouldUpdateState] stays false with no commit queued. From then on
    no call and no timer changes the state again: every later [setState]
    only adds a resolve timer. *)
Theorem throwing_update_wedges_store
    (e : environment) (w0 : world) (u : update) (us : list update) (err : exn) :
  window_start w0 → Forall (old_timer w0) (timers w0) →
  Forall (update_allocated (jsheap w0)) (u :: us) →
  try_updates (jsheap w0) (state w0) (u :: us) = Throw err →
  (∃ evs,
     trace (run_timers e (setStates (u :: us) w0).2) = (trace w0 ++ evs)%list ∧
     omap listener_of evs = [] ∧ omap commit_of evs = []) ∧
  state (run_timers e (setStates (u :: us) w0).2) = state w0 ∧
  timers (run_timers e (setStates (u :: us) w0).2) = [] ∧
  wedged (run_timers e (setStates (u :: us) w0).2) ∧
  (∀ w3, steps e (run_timers e (setStates (u :: us) w0).2) w3 →
         wedged w3 ∧ state w3 = state w0).
Proof.
  intros (Hr & Hsh & Hid) Hold Halloc Hthrow.
  destruct (setStates_ready (u :: us) w0 Hr)
    as (w1 & Hrun & Hr1 & Hst & Hls & Hhp & Htr & Hsh1 & Hcomp & Htm & Hps).
  rewrite Hsh in Htm. unfold batch_timers in Htm.
  cbn [length app] in Hrun, Htm, Hps.
  destruct (old_timers_resolve w0 _ Hold) as (qs & Hqs & Hlt).
  set (p0 := length (promises w0)) in *. set (n := S (length us)) in *.
  set (wa := run_tasks e (TResolve <$> qs) (set_timers [] w1)).
  destruct (run_resolves e qs (set_timers [] w1))
    as (Hgra & _ & evsa & Htra & Hevsa).
  fold wa in Hgra, Htra.
  assert (Hra : storeReady wa = true) by (by rewrite (g_ready _ _ Hgra)).
  assert (Hsub0 : jsheap w0 ⊆ jsheap wa).
  { rewrite <- Hhp. apply (g_heap _ _ Hgra). }
  destruct (commit_ready wa Hra) as (c0 & Hc0 & _ & Habort).
  set (h1 := <[c0 := HObject (state wa)]> (jsheap wa)) in *.
  assert (Hnext : composeNextState wa h1 (state wa) = Throw err).
  { rewrite (g_compose _ _ Hgra), (g_state _ _ Hgra).
    change (composeNextState (set_timers [] w1)) with (composeNextState w1).
    change (state (set_timers [] w1)) with (state w1).
    rewrite Hcomp, Hid, Hst.
    rewrite (try_updates_extends (jsheap w0) h1); [exact Hthrow| |exact Halloc].
    etrans; [exact Hsub0|]. by apply insert_subseteq. }
  specialize (Habort err Hnext).
  destruct (run_resolves e (seq p0 n) (set_jsheap h1 wa))
    as (Hgr2 & _ & evs2 & Htr2 & Hevs2).
  assert (Hloop : run_timers e w1 =
                  run_tasks e (TResolve <$> seq p0 n) (set_jsheap h1 wa)).
  { unfold run_timers. rewrite Htm, Hqs, run_tasks_app. fold wa.
    cbn [run_tasks run_task]. by rewrite Habort. }
  rewrite <- Hloop in Hgr2, Htr2.
  rewrite Hrun. cbn [snd].
  assert (Hst2 : state (run_timers e w1) = state w0).
  { rewrite (g_state _ _ Hgr2). cbn. by rewrite (g_state _ _ Hgra). }
  assert (Htm2 : timers (run_timers e w1) = []).
  { rewrite (g_timers _ _ Hgr2). cbn. by rewrite (g_timers _ _ Hgra). }
  assert (Hwedged : wedged (run_timers e w1)).
  { split; [|split].
    - rewrite (g_ready _ _ Hgr2). exact Hra.
    - rewrite (g_should _ _ Hgr2). cbn. by rewrite (g_should _ _ Hgra).
    - rewrite Htm2. constructor. }
  split; [|split; [exact Hst2|split; [exact Htm2|split; [exact Hwedged|]]]].
  - exists (evsa ++ evs2)%list. split.
    { rewrite Htr2. cbn. by rewrite Htra, <- app_assoc, <- Htr. }
    apply settle_events_silent, Forall_app. split.
    + eapply Forall_impl; [exact Hevsa|]. intros ev (q & _ & o & ->).
      by eexists _, _.
    + eapply Forall_impl; [exact Hevs2|]. intros ev (q & _ & o & ->).
      by eexists _, _.
  - intros w3 Hsteps.
    destruct (wedged_steps e _ w3 Hwedged Hsteps) as [Hw3 Hst3].
    split; [exact Hw3|]. by rewrite Hst3.
Qed.

Lemma throwing_update_wedges_store_witness :
  state (run_task background_page (TResolve 2)
           (set_timers []
              (do_call background_page (CallSetState (UpdFn add_apple))
                 (run_timers background_page
                    (setStates [UpdFn add_apple; refuse_update] fruit_world).2))))
  = state fruit_world.
Proof.
  destruct (throwing_update_wedges_store background_page fruit_world
              (UpdFn add_apple) [refuse_update] (Error "no state")
              fruit_world_window)
    as (_ & _ & Htm & _ & Hlater).
  - constructor.
  - repeat constructor.
  - vm_compute. reflexivity.
  - set (w2 := run_timers background_page
                 (setStates [UpdFn add_apple; refuse_update] fruit_world).2) in *.
    apply (Hlater (run_task background_page (TResolve 2)
                     (set_timers []
                        (do_call background_page (CallSetState (UpdFn add_apple))
                                 w2)))).
    eapply steps_more.
    + eapply steps_more; [apply steps_refl|].
      apply (step_call _ (CallSetState (UpdFn add_apple))).
    + apply (step_timer background_page (TResolve 2) []).
      cbn [do_call]. rewrite setState_ready by (vm_compute; reflexivity).
      cbn [timers]. rewrite Htm. vm_compute. reflexivity.
Defined.
